(** * icepack: ice rheology and regularization functionals

    A shallow embedding of
      - [src/physics/viscosity.cpp]: the Glen-law rate factor and viscosity,
        and the constitutive tensors of the shallow-shelf model ([SSA]);
      - [include/icepack/inverse/regularization.hpp]: the [SquareGradient]
        and [TotalVariation] functionals.

    Numbers.  A C++ [double] is modelled by the real number it denotes.
    An operation without a finite real result (a division by zero, a power
    of a non-positive base with a negative exponent) returns [None]; the
    functions that contain one live in the [option] monad.  Rounding,
    overflow and underflow are not modelled there: the statements about the
    formulas are statements about the exact real-number semantics of the
    code.

    The statements about order and about what the rheology returns at its
    singular points are made on a second embedding of [viscosity.cpp], in
    the module [Binary64], where a [double] has its range: NaN, the two
    infinities, and results brought into range after every operation. *)

From Stdlib Require Import Reals Lra Psatz List Arith Lia ZArith.
Import ListNotations.
Open Scope R_scope.

(** ** Partial arithmetic *)

Definition bind {A B : Type} (m : option A) (f : A -> option B) : option B :=
  match m with
  | Some a => f a
  | None => None
  end.

Notation "x <- m ;; k" := (bind m (fun x => k))
  (at level 61, m at next level, right associativity).

(** [x < y] on doubles, as a boolean. *)
Definition Rltb (x y : R) : bool := if Rlt_dec x y then true else false.

(** [x / y]: no finite result when the divisor is zero. *)
Definition div (x y : R) : option R :=
  if Req_dec_T y 0 then None else Some (x / y).

(** [std::pow(x, y)].  For a positive base it is [exp (y * ln x)]; at base
    zero it is 0 for a positive exponent, 1 for exponent 0 and a pole for a
    negative one.  For a negative base [std::pow] is finite at integer
    exponents only; the code below always passes the exponent -1/3, so that
    case is modelled as having no result. *)
Definition pow (x y : R) : option R :=
  if Rlt_dec 0 x then Some (Rpower x y)
  else if Req_dec_T x 0 then
         if Rlt_dec 0 y then Some 0
         else if Req_dec_T y 0 then Some 1 else None
       else None.

(** ** Symmetric tensors in dimension 2 (deal.II's [SymmetricTensor])

    A [SymmetricTensor<2,2>] stores its three independent components
    (0,0), (1,1), (0,1).  A [SymmetricTensor<4,2>] stores a 3 x 3 table
    indexed by two such pairs; [row00], [row11], [row01] are its rows. *)

Record SymmetricTensor2 : Type := mkT2 { c00 : R; c11 : R; c01 : R }.

Record SymmetricTensor4 : Type :=
  mkT4 { row00 : SymmetricTensor2; row11 : SymmetricTensor2; row01 : SymmetricTensor2 }.

(** Tensor indices, and the components [t[i][j]] and [t[i][j][k][l]]. *)
Inductive index : Type := i0 | i1.

Definition component2 (t : SymmetricTensor2) (i j : index) : R :=
  match i, j with
  | i0, i0 => c00 t
  | i1, i1 => c11 t
  | _, _ => c01 t
  end.

Definition row (t : SymmetricTensor4) (i j : index) : SymmetricTensor2 :=
  match i, j with
  | i0, i0 => row00 t
  | i1, i1 => row11 t
  | _, _ => row01 t
  end.

Definition component4 (t : SymmetricTensor4) (i j k l : index) : R :=
  component2 (row t i j) k l.

Definition add2 (a b : SymmetricTensor2) : SymmetricTensor2 :=
  mkT2 (c00 a + c00 b) (c11 a + c11 b) (c01 a + c01 b).

Definition scale2 (s : R) (a : SymmetricTensor2) : SymmetricTensor2 :=
  mkT2 (s * c00 a) (s * c11 a) (s * c01 a).

(** [t / s] for a tensor [t] and a scalar [s]: every component is divided. *)
Definition div2 (a : SymmetricTensor2) (s : R) : option SymmetricTensor2 :=
  x <- div (c00 a) s ;; y <- div (c11 a) s ;; z <- div (c01 a) s ;;
  Some (mkT2 x y z).

Definition add4 (a b : SymmetricTensor4) : SymmetricTensor4 :=
  mkT4 (add2 (row00 a) (row00 b)) (add2 (row11 a) (row11 b))
       (add2 (row01 a) (row01 b)).

Definition scale4 (s : R) (a : SymmetricTensor4) : SymmetricTensor4 :=
  mkT4 (scale2 s (row00 a)) (scale2 s (row11 a)) (scale2 s (row01 a)).

Definition sub2 (a b : SymmetricTensor2) : SymmetricTensor2 :=
  mkT2 (c00 a - c00 b) (c11 a - c11 b) (c01 a - c01 b).

Definition sub4 (a b : SymmetricTensor4) : SymmetricTensor4 :=
  mkT4 (sub2 (row00 a) (row00 b)) (sub2 (row11 a) (row11 b))
       (sub2 (row01 a) (row01 b)).

Definition div4 (a : SymmetricTensor4) (s : R) : option SymmetricTensor4 :=
  x <- div2 (row00 a) s ;; y <- div2 (row11 a) s ;; z <- div2 (row01 a) s ;;
  Some (mkT4 x y z).

(** [unit_symmetric_tensor<2>()]: the Kronecker delta. *)
Definition unit_symmetric_tensor : SymmetricTensor2 := mkT2 1 1 0.

(** [identity_tensor<2>()]: the identity map on symmetric tensors.  Its
    stored entries are 1, 1 and 1/2: the off-diagonal entry is counted twice
    in a contraction. *)
Definition identity_tensor : SymmetricTensor4 :=
  mkT4 (mkT2 1 0 0) (mkT2 0 1 0) (mkT2 0 0 (1 / 2)).

(** [outer_product(a, b)]: entry (ij, kl) is [a[i][j] * b[k][l]]. *)
Definition outer_product (a b : SymmetricTensor2) : SymmetricTensor4 :=
  mkT4 (scale2 (c00 a) b) (scale2 (c11 a) b) (scale2 (c01 a) b).

(** [a * b] on rank-2 tensors: the scalar product, the sum over all four
    index pairs (the stored off-diagonal entry stands for two of them). *)
Definition scalar_product (a b : SymmetricTensor2) : R :=
  c00 a * c00 b + c11 a * c11 b + 2 * (c01 a * c01 b).

(** [first_invariant(t)]: the trace. *)
Definition first_invariant (t : SymmetricTensor2) : R := c00 t + c11 t.

(** [t * e] for a rank-4 [t] and a rank-2 [e]: the double contraction. *)
Definition contract (t : SymmetricTensor4) (e : SymmetricTensor2) : SymmetricTensor2 :=
  mkT2 (scalar_product (row00 t) e) (scalar_product (row11 t) e)
       (scalar_product (row01 t) e).

(** Kronecker delta, for stating component formulas. *)
Definition delta (i j : index) : R :=
  match i, j with
  | i0, i0 | i1, i1 => 1
  | _, _ => 0
  end.

(** ** Viscosity of ice ([viscosity.cpp])

    [year_in_sec] and [ideal_gas] come from [icepack/physics/constants.hpp],
    which is not part of the sources at hand: they are parameters here,
    gathered in a record. *)

Record PhysicalConstants : Type := mkPhysicalConstants {
  year_in_sec : R;
  ideal_gas : R
}.

Section Viscosity.

Variable k : PhysicalConstants.

Definition transition_temperature : R := 263.215.
Definition A0_cold : R := 3.985e-13 * year_in_sec k * 1.0e18.
Definition A0_warm : R := 1.916e3 * year_in_sec k * 1.0e18.
Definition Q_cold : R := 60.
Definition Q_warm : R := 139.

Definition rate_factor (temperature : R) : option R :=
  let cold := Rltb temperature transition_temperature in
  let A0 := if cold then A0_cold else A0_warm in
  let Q := if cold then Q_cold else Q_warm in
  q <- div (- Q) (ideal_gas k * temperature) ;;
  Some (A0 * exp q).

Definition viscosity (temperature strain_rate : R) : option R :=
  A <- rate_factor temperature ;;
  p <- pow (A * strain_rate * strain_rate) (-1 / 3) ;;
  Some (p / 2).

End Viscosity.

(** Constants for the examples: a Julian year in seconds, and the ideal gas
    constant in kJ / (mol K). *)
Definition example_constants : PhysicalConstants :=
  mkPhysicalConstants 31557600 8.3144621e-3.

(** ** Constitutive tensors of the shallow-shelf model *)

Module SSA.

Definition I : SymmetricTensor2 := unit_symmetric_tensor.
Definition II : SymmetricTensor4 := identity_tensor.
Definition C : SymmetricTensor4 := add4 II (outer_product I I).

(** The effective strain rate both tensor functions compute first. *)
Definition effective_strain_rate (eps : SymmetricTensor2) : R :=
  let tr := first_invariant eps in
  sqrt ((scalar_product eps eps + tr * tr) / 2).

Section Constitutive.

Variable k : PhysicalConstants.

Definition nonlinear (T h : R) (eps : SymmetricTensor2)
  : option SymmetricTensor4 :=
  let tr := first_invariant eps in
  let eps_e := sqrt ((scalar_product eps eps + tr * tr) / 2) in
  v <- viscosity k T eps_e ;;
  let nu := h * v in
  Some (scale4 (2 * nu) C).

Definition linearized (T h : R) (eps : SymmetricTensor2)
  : option SymmetricTensor4 :=
  let tr := first_invariant eps in
  let eps_e := sqrt ((scalar_product eps eps + tr * tr) / 2) in
  gamma <- div2 (add2 eps (scale2 tr I)) eps_e ;;
  v <- viscosity k T eps_e ;;
  let nu := h * v in
  g <- div4 (outer_product gamma gamma) 3 ;;
  Some (scale4 (2 * nu) (sub4 C g)).

End Constitutive.

End SSA.

(** The tensor the specification's formula [2 nu (2 I4 + I2 (x) I2)] denotes,
    written from the specification's words to be compared with [nonlinear]. *)
Definition claimed_nonlinear_tensor (nu : R) : SymmetricTensor4 :=
  scale4 (2 * nu)
    (add4 (scale4 2 identity_tensor)
          (outer_product unit_symmetric_tensor unit_symmetric_tensor)).

(** A strain rate for the examples: uniaxial stretching. *)
Definition example_strain_rate : SymmetricTensor2 := mkT2 1 0 0.

(** ** Discretization and fields (the collaborators of the regularizers)

    The mesh, the finite element, the quadrature rule and the constraints
    belong to deal.II and to icepack's [Discretization]; none of them is
    among the sources at hand.  A [Discretization] is therefore a record of
    what the regularizers read from them, and every statement below holds
    for every such record.

    Fields are scalar (rank 0): a value is a [double], a gradient is a
    [Tensor<1,dim>], here the list of its components, and [a * b] between
    two gradients is their scalar product. *)

Definition Vector : Type := list R.
Definition FullMatrix : Type := list (list R).
Definition SparseMatrix : Type := list (list R).
Definition gradient_type : Type := list R.
Definition cell_iterator : Type := nat.

(** [a * b] on [Tensor<1,dim>]. *)
Fixpoint dot (a b : list R) : R :=
  match a, b with
  | x :: a', y :: b' => x * y + dot a' b'
  | _, _ => 0
  end.

(** [s * a] and [a / s] on [Tensor<1,dim>]. *)
Definition vscale (s : R) (a : gradient_type) : gradient_type :=
  map (fun x => s * x) a.

Fixpoint vdiv (a : gradient_type) (s : R) : option gradient_type :=
  match a with
  | [] => Some []
  | x :: a' => y <- div x s ;; r <- vdiv a' s ;; Some (y :: r)
  end.

(** Element-wise sum and difference of coefficient vectors. *)
Fixpoint vadd (a b : Vector) : Vector :=
  match a, b with
  | x :: a', y :: b' => (x + y) :: vadd a' b'
  | _, _ => []
  end.

Fixpoint vsub (a b : Vector) : Vector :=
  match a, b with
  | x :: a', y :: b' => (x - y) :: vsub a' b'
  | _, _ => []
  end.

(** [l2_norm] of a vector. *)
Definition l2_norm (a : Vector) : R := sqrt (dot a a).

(** [A.vmult(dst, src)]: the matrix-vector product, row by row; and
    [A.matrix_norm_square(v)], the quadratic form [v^T A v]. *)
Definition vmult (A : SparseMatrix) (src : Vector) : Vector :=
  map (fun r => dot r src) A.

Definition matrix_norm_square (A : SparseMatrix) (v : Vector) : R :=
  dot v (vmult A v).

(** A matrix or vector set to zero ([m = 0], or freshly constructed). *)
Definition zero_vector (n : nat) : Vector := repeat 0 n.
Definition zero_matrix (n : nat) : list (list R) := repeat (repeat 0 n) n.

(** In-place update of one element; nothing happens out of range (the loops
    below stay in range). *)
Fixpoint update {A : Type} (l : list A) (i : nat) (f : A -> A) : list A :=
  match l, i with
  | [], _ => []
  | x :: l', O => f x :: l'
  | x :: l', S i' => x :: update l' i' f
  end.

(** [v(i) += x] and [m(i, j) += x]. *)
Definition add_to (v : Vector) (i : nat) (x : R) : Vector :=
  update v i (fun old => old + x).

Definition add_entry (m : FullMatrix) (i j : nat) (x : R) : FullMatrix :=
  update m i (fun r => add_to r j x).

(** A [for] loop over [xs] whose body may fail, threading the state. *)
Fixpoint for_each {S X : Type} (xs : list X) (body : X -> S -> option S) (s : S)
  : option S :=
  match xs with
  | [] => Some s
  | x :: xs' => s' <- body x s ;; for_each xs' body s'
  end.

(** [0 + f x1 + f x2 + ...], in the order a running total accumulates. *)
Definition sum_over {X : Type} (xs : list X) (f : X -> R) : R :=
  fold_left (fun total x => total + f x) xs 0.

(** The vector [(f 0, ..., f (n-1))] and the [n] x [n] matrix of entries
    [f i j]. *)
Definition tabulate {A : Type} (n : nat) (f : nat -> A) : list A :=
  map f (seq 0 n).

Definition table (n : nat) (f : nat -> nat -> R) : list (list R) :=
  tabulate n (fun i => tabulate n (f i)).

(** [ConstraintMatrix::distribute_local_to_global], for a cell vector and
    for a cell matrix. *)
Record ConstraintMatrix : Type := mkConstraintMatrix {
  distribute_local_to_global_vector : Vector -> list nat -> Vector -> Vector;
  distribute_local_to_global_matrix :
    FullMatrix -> list nat -> SparseMatrix -> SparseMatrix
}.

(** Modelled from the spec: icepack's [Discretization] and deal.II's
    [DoFHandler], [FEValues] and [QGauss] are not among the sources; the
    specification lists what they provide (cell traversal, quadrature rule,
    basis values and gradients at quadrature points, degree-of-freedom
    indexing, constraint distribution, the mass operator).  The record holds
    what the regularizers read: the active cells; [quad.size()];
    [fe.dofs_per_cell]; the number of degrees of freedom (the size of the
    sparsity pattern and of a coefficient vector); after
    [fe_values.reinit(cell)], [JxW(q)], [fe_values[ex].value(i, q)],
    [fe_values[ex].gradient(i, q)] and [get_function_gradients]; the
    indices [cell->get_dof_indices] fills in; the constraints; and the mass
    matrix. *)
Record Discretization : Type := mkDiscretization {
  active_cell_iterators : list cell_iterator;
  quad_size : nat;
  dofs_per_cell : nat;
  n_dofs : nat;
  JxW : cell_iterator -> nat -> R;
  shape_value : cell_iterator -> nat -> nat -> R;
  shape_gradient : cell_iterator -> nat -> nat -> gradient_type;
  get_function_gradients : cell_iterator -> Vector -> nat -> gradient_type;
  get_dof_indices : cell_iterator -> list nat;
  get_constraints : ConstraintMatrix;
  get_mass_matrix : SparseMatrix
}.

(** [primal] and [dual]: the tag that tells a field from a linear
    functional on fields. *)
Inductive Duality : Type := primal | dual.

(** Modelled from the spec: [FieldType<rank, dim, duality>]
    ([icepack/field.hpp], not among the sources) carries a reference to its
    discretization and its coefficients over the degrees of freedom. *)

Record FieldType (duality : Duality) : Type := mkField {
  get_discretization : Discretization;
  get_coefficients : Vector
}.

Arguments mkField {duality} _ _.
Arguments get_discretization {duality} _.
Arguments get_coefficients {duality} _.

(** [FieldType<...> u(discretization)]: the zero field. *)
Definition new_field (duality : Duality) (dsc : Discretization) : FieldType duality :=
  mkField dsc (zero_vector (n_dofs dsc)).

(** ** The regularizers ([regularization.hpp]) *)

Section Regularization.

(** deal.II's [SolverCG<>::solve] under [SolverControl(max_steps, tolerance)]:
    operator, initial guess, right-hand side, preconditioner; [None] when it
    throws for lack of convergence. *)
Variable solver_cg :
  nat -> R -> (Vector -> Vector) -> Vector -> Vector -> (Vector -> Vector)
  -> option Vector.

(** deal.II's [MatrixCreator::create_laplace_matrix] for a discretization
    and a constant coefficient. *)
Variable create_laplace_matrix : Discretization -> R -> SparseMatrix.

(** icepack's [linear_solve] ([icepack/numerics/linear_solve.hpp], not among
    the sources): matrix, initial guess, right-hand side, constraints;
    [None] when the solve fails. *)
Variable linear_solve :
  SparseMatrix -> Vector -> Vector -> ConstraintMatrix -> option Vector.

Definition PreconditionIdentity : Vector -> Vector := fun v => v.

(** *** SquareGradient *)

Record SquareGradient : Type := mkSquareGradient {
  L : SparseMatrix;
  M : SparseMatrix
}.

(** The constructor. *)
Definition SquareGradient_new (dsc : Discretization) (alpha : R) : SquareGradient :=
  mkSquareGradient (create_laplace_matrix dsc (alpha * alpha)) (get_mass_matrix dsc).

(** [operator()]. *)
Definition SquareGradient_value (sg : SquareGradient) (u : FieldType primal) : R :=
  0.5 * matrix_norm_square (L sg) (get_coefficients u).

(** [derivative]. *)
Definition SquareGradient_derivative (sg : SquareGradient) (u : FieldType primal)
  : FieldType dual :=
  mkField (get_discretization u) (vmult (L sg) (get_coefficients u)).

(** The sum of the two [linear_operator]s, of [M] and of [L]. *)
Definition SquareGradient_operator (sg : SquareGradient) : Vector -> Vector :=
  fun v => vadd (vmult (M sg) v) (vmult (L sg) v).

(** [filter]: its first parameter has no name. *)
Definition SquareGradient_filter (sg : SquareGradient)
  (_ : FieldType primal) (f : FieldType dual) : option (FieldType primal) :=
  let u := new_field primal (get_discretization f) in
  let A := SquareGradient_operator sg in
  x <- solver_cg 1000 1.0e-10 A (get_coefficients u) (get_coefficients f)
         PreconditionIdentity ;;
  Some (mkField (get_discretization u) x).

(** *** TotalVariation *)

Record TotalVariation : Type := mkTotalVariation { alpha : R }.

(** The constructor: the discretization is not looked at. *)
Definition TotalVariation_new (_ : Discretization) (alpha : R) : TotalVariation :=
  mkTotalVariation alpha.

(** [operator()]. *)
Definition TotalVariation_value (tv : TotalVariation) (u : FieldType primal) : R :=
  let dsc := get_discretization u in
  let n_q_points := quad_size dsc in
  fold_left
    (fun total_variation cell =>
       fold_left
         (fun total_variation q =>
            let dx := JxW dsc cell q in
            let du :=
              vscale (alpha tv)
                (get_function_gradients dsc cell (get_coefficients u) q) in
            let cell_graph_area := sqrt (dot du du + 1) - 1 in
            total_variation + cell_graph_area * dx)
         (seq 0 n_q_points) total_variation)
    (active_cell_iterators dsc) 0.

(** The body of the cell loop of [derivative]: the cell vector. *)
Definition derivative_cell (tv : TotalVariation) (u : FieldType primal)
  (cell : cell_iterator) : option Vector :=
  let dsc := get_discretization u in
  let n_q_points := quad_size dsc in
  let dofs_per_cell := dofs_per_cell dsc in
  for_each (seq 0 n_q_points)
    (fun q cell_div_graph_normal =>
       let dx := JxW dsc cell q in
       let du :=
         vscale (alpha tv)
           (get_function_gradients dsc cell (get_coefficients u) q) in
       let dA := sqrt (dot du du + 1) in
       for_each (seq 0 dofs_per_cell)
         (fun i cell_div_graph_normal =>
            let dphi := shape_gradient dsc cell i q in
            t <- div (dot (vscale (alpha tv) du) dphi) dA ;;
            Some (add_to cell_div_graph_normal i (t * dx)))
         cell_div_graph_normal)
    (zero_vector dofs_per_cell).

(** [derivative]. *)
Definition TotalVariation_derivative (tv : TotalVariation) (u : FieldType primal)
  : option (FieldType dual) :=
  let discretization := get_discretization u in
  let div_graph_normal := new_field dual discretization in
  g <- for_each (active_cell_iterators discretization)
         (fun cell global =>
            cell_div_graph_normal <- derivative_cell tv u cell ;;
            Some (distribute_local_to_global_vector
                    (get_constraints discretization)
                    cell_div_graph_normal
                    (get_dof_indices discretization cell)
                    global))
         (get_coefficients div_graph_normal) ;;
  Some (mkField discretization g).

(** The body of the cell loop of [filter]: the cell matrix. *)
Definition filter_cell (tv : TotalVariation) (u : FieldType primal)
  (cell : cell_iterator) : option FullMatrix :=
  let dsc := get_discretization u in
  let n_q_points := quad_size dsc in
  let dofs_per_cell := dofs_per_cell dsc in
  for_each (seq 0 n_q_points)
    (fun q cell_matrix =>
       let dx := JxW dsc cell q in
       let du :=
         vscale (alpha tv)
           (get_function_gradients dsc cell (get_coefficients u) q) in
       let dA := sqrt (dot du du + 1) in
       for_each (seq 0 dofs_per_cell)
         (fun i cell_matrix =>
            let phi_i := shape_value dsc cell i q in
            let d_phi_i := shape_gradient dsc cell i q in
            for_each (seq 0 dofs_per_cell)
              (fun j cell_matrix =>
                 let phi_j := shape_value dsc cell j q in
                 let d_phi_j := shape_gradient dsc cell j q in
                 let cell_mass := phi_i * phi_j in
                 tau <- vdiv du dA ;;
                 cell_div_graph_normal <-
                   div (dot d_phi_i d_phi_j
                        - dot d_phi_i tau * dot tau d_phi_j) dA ;;
                 Some (add_entry cell_matrix i j
                         ((cell_mass
                           + alpha tv * alpha tv * cell_div_graph_normal) * dx)))
              cell_matrix)
         cell_matrix)
    (zero_matrix dofs_per_cell).

(** The cell loop of [filter]: the matrix [A], from zero. *)
Definition filter_matrix (tv : TotalVariation) (u : FieldType primal)
  : option SparseMatrix :=
  let discretization := get_discretization u in
  for_each (active_cell_iterators discretization)
    (fun cell A =>
       cell_matrix <- filter_cell tv u cell ;;
       Some (distribute_local_to_global_matrix
               (get_constraints discretization)
               cell_matrix
               (get_dof_indices discretization cell)
               A))
    (zero_matrix (n_dofs discretization)).

(** [filter].  ([A.compress] does nothing to a matrix that lives in one
    process.) *)
Definition TotalVariation_filter (tv : TotalVariation)
  (u : FieldType primal) (f : FieldType dual) : option (FieldType primal) :=
  let discretization := get_discretization u in
  let v := new_field primal discretization in
  A <- filter_matrix tv u ;;
  x <- linear_solve A (get_coefficients v) (get_coefficients f)
         (get_constraints discretization) ;;
  Some (mkField discretization x).

End Regularization.

(** *** The integrands, as formulas

    What one quadrature point contributes to entry [i] of the cell vector of
    [derivative] and to entry [(i, j)] of the cell matrix of [filter], given
    the gradient [du_values] of the field there, the values and gradients of
    the shape functions and the weight [dx]. *)

Definition graph_area_element (alpha : R) (du_values : gradient_type) : R :=
  let du := vscale alpha du_values in
  sqrt (dot du du + 1).

Definition graph_normal (alpha : R) (du_values : gradient_type) : gradient_type :=
  let du := vscale alpha du_values in
  let dA := graph_area_element alpha du_values in
  map (fun x => x / dA) du.

Definition derivative_integrand (alpha : R) (du_values d_phi_i : gradient_type)
  (dx : R) : R :=
  let du := vscale alpha du_values in
  let dA := graph_area_element alpha du_values in
  dot (vscale alpha du) d_phi_i / dA * dx.

Definition filter_integrand (alpha : R) (du_values : gradient_type)
  (phi_i phi_j : R) (d_phi_i d_phi_j : gradient_type) (dx : R) : R :=
  let dA := graph_area_element alpha du_values in
  let tau := graph_normal alpha du_values in
  (phi_i * phi_j
   + alpha * alpha
     * ((dot d_phi_i d_phi_j - dot d_phi_i tau * dot tau d_phi_j) / dA)) * dx.

(** The cell matrix of [filter] in closed form. *)
Definition filter_cell_matrix (alpha : R) (u : FieldType primal)
  (cell : cell_iterator) : FullMatrix :=
  let dsc := get_discretization u in
  table (dofs_per_cell dsc)
    (fun i j =>
       sum_over (seq 0 (quad_size dsc))
         (fun q =>
            filter_integrand alpha
              (get_function_gradients dsc cell (get_coefficients u) q)
              (shape_value dsc cell i q) (shape_value dsc cell j q)
              (shape_gradient dsc cell i q) (shape_gradient dsc cell j q)
              (JxW dsc cell q))).

(** The operator [A(u)] of [filter] in closed form: the cell matrices
    distributed, cell after cell, into the zero matrix. *)
Definition TotalVariation_operator (alpha : R) (u : FieldType primal)
  : SparseMatrix :=
  let dsc := get_discretization u in
  fold_left
    (fun A cell =>
       distribute_local_to_global_matrix (get_constraints dsc)
         (filter_cell_matrix alpha u cell) (get_dof_indices dsc cell) A)
    (active_cell_iterators dsc)
    (zero_matrix (n_dofs dsc)).

(** The cell vector of [derivative] in closed form. *)
Definition derivative_cell_vector (alpha : R) (u : FieldType primal)
  (cell : cell_iterator) : Vector :=
  let dsc := get_discretization u in
  tabulate (dofs_per_cell dsc)
    (fun i =>
       sum_over (seq 0 (quad_size dsc))
         (fun q =>
            derivative_integrand alpha
              (get_function_gradients dsc cell (get_coefficients u) q)
              (shape_gradient dsc cell i q)
              (JxW dsc cell q))).

(** *** Notions for the statements about the cell matrices *)



(** The mass part of the cell matrix of [filter]: the terms [cell_mass * dx]
    alone. *)
Definition mass_cell_matrix (u : FieldType primal) (cell : cell_iterator)
  : FullMatrix :=
  let dsc := get_discretization u in
  table (dofs_per_cell dsc)
    (fun i j =>
       sum_over (seq 0 (quad_size dsc))
         (fun q =>
            shape_value dsc cell i q * shape_value dsc cell j q
            * JxW dsc cell q)).




(** ** Objects for the examples

    A discretization without constraints, where distributing a cell vector
    or matrix is plain scatter-add through the cell's degree-of-freedom
    indices; on it one cell of measure 1 with one constant shape function and
    one quadrature point; and solvers that try the right-hand side itself as
    the solution and return it when it passes their own stopping test. *)

Definition scatter_vector (cell_vector : Vector) (local_dof_indices : list nat)
  (global : Vector) : Vector :=
  fold_left
    (fun g i => add_to g (nth i local_dof_indices 0%nat) (nth i cell_vector 0))
    (seq 0 (length local_dof_indices)) global.

Definition scatter_matrix (cell_matrix : FullMatrix)
  (local_dof_indices : list nat) (global : SparseMatrix) : SparseMatrix :=
  fold_left
    (fun g i =>
       fold_left
         (fun g' j =>
            add_entry g' (nth i local_dof_indices 0%nat)
              (nth j local_dof_indices 0%nat)
              (nth j (nth i cell_matrix []) 0))
         (seq 0 (length local_dof_indices)) g)
    (seq 0 (length local_dof_indices)) global.

Definition no_constraints : ConstraintMatrix :=
  mkConstraintMatrix scatter_vector scatter_matrix.

Definition example_discretization : Discretization :=
  mkDiscretization [0%nat] 1 1 1
    (fun _ _ => 1) (fun _ _ _ => 1) (fun _ _ _ => [0]) (fun _ _ _ => [0])
    (fun _ => [0%nat]) no_constraints [[1]].

Definition example_field (duality : Duality) (x : R) : FieldType duality :=
  mkField example_discretization [x].

Definition example_linear_solve (A : SparseMatrix) (x0 b : Vector)
  (c : ConstraintMatrix) : option Vector :=
  if list_eq_dec Req_dec_T (vmult A b) b then Some b else None.


(** The Laplace matrix of a one-cell discretization. *)
Definition example_laplace_matrix (dsc : Discretization) (a : R) : SparseMatrix :=
  table (n_dofs dsc)
    (fun i j =>
       sum_over (seq 0 (quad_size dsc))
         (fun q =>
            a * dot (shape_gradient dsc 0%nat i q) (shape_gradient dsc 0%nat j q)
            * JxW dsc 0%nat q)).


(** The unit interval as one cell with its two linear shape functions, the
    quadrature points at its two ends with weights 1/2, and the mass matrix
    of the two shape functions; and a solver for two unknowns that reads the
    operator off the unit vectors, solves by Cramer's rule and returns the
    solution when it passes the stopping test. *)
Definition example_interval : Discretization :=
  mkDiscretization [0%nat] 2 2 2
    (fun _ _ => 1 / 2)
    (fun _ i q => if Nat.eqb i q then 1 else 0)
    (fun _ i _ => if Nat.eqb i 0 then [-1] else [1])
    (fun _ u _ => [nth 1 u 0 - nth 0 u 0])
    (fun _ => [0%nat; 1%nat]) no_constraints
    [[1 / 3; 1 / 6]; [1 / 6; 1 / 3]].

Definition example_direct_solver (max_steps : nat) (tolerance : R)
  (A : Vector -> Vector) (x0 b : Vector) (P : Vector -> Vector)
  : option Vector :=
  let a11 := nth 0 (A [1; 0]) 0 in
  let a21 := nth 1 (A [1; 0]) 0 in
  let a12 := nth 0 (A [0; 1]) 0 in
  let a22 := nth 1 (A [0; 1]) 0 in
  let det := a11 * a22 - a12 * a21 in
  let x := [(a22 * nth 0 b 0 - a12 * nth 1 b 0) / det;
            (a11 * nth 1 b 0 - a21 * nth 0 b 0) / det] in
  if Nat.eq_dec (length x0) 2 then
    if Rle_dec (l2_norm (vsub b (A x))) tolerance then Some x else None
  else None.



(** *** Notions for further statements about the rheology *)

(** The bilinear form of [C]: [(C : a) : b = a : b + tr a tr b]. *)
Definition C_form (a b : SymmetricTensor2) : R :=
  scalar_product a b + first_invariant a * first_invariant b.

(** [-e]. *)
Definition opposite (e : SymmetricTensor2) : SymmetricTensor2 :=
  mkT2 (- c00 e) (- c11 e) (- c01 e).

(** A second strain rate for the examples: simple shear. *)
Definition example_shear : SymmetricTensor2 := mkT2 0 0 1.

(** *** Notions for further statements about the regularizers *)

(** The field [c u]: the coefficients of [u] scaled by [c]. *)
Definition scale_field {duality : Duality} (c : R) (u : FieldType duality)
  : FieldType duality :=
  mkField (get_discretization u) (vscale c (get_coefficients u)).

(** * The rheology with the range of a [double]

    Above a [double] is the real number it denotes, which suits the
    identities between the formulas.  What the code does at the ends of the
    range is not visible there: a product too large for a [double] is an
    infinity, one too small is zero, and a division by zero or [std::pow] at
    a pole returns an infinity or a NaN and the computation goes on.  Here a
    [double] is a NaN, an infinity or a real number, and an operation
    computes the exact result and brings it into range.  Rounding within the
    range is left aside, and so is the sign of a zero: a zero is [+0], which
    is what the operations below produce from arguments that are not
    negative. *)

Module Binary64.

Inductive double : Type :=
| NaN : double
| infinity (negative : bool) : double
| finite (x : R) : double.

(** From [2^1024 - 2^970] on, halfway between the largest [double] and
    [2^1024], a magnitude rounds to an infinity; up to [2^-1075], half the
    smallest positive [double], it rounds to zero. *)
Definition overflow_threshold : R :=
  IZR ltac:(let z := eval vm_compute in (2 ^ 1024 - 2 ^ 970)%Z in exact z).

Definition underflow_threshold : R :=
  / IZR ltac:(let z := eval vm_compute in (2 ^ 1075)%Z in exact z).

(** The exact result [x] of an operation, as a [double]. *)
Definition round (x : R) : double :=
  if Rle_dec overflow_threshold (Rabs x) then infinity (Rltb x 0)
  else if Rle_dec (Rabs x) underflow_threshold then finite 0
  else finite x.

(** [-a], [a + b], [a - b], [a * b], [a / b]. *)
Definition opp (a : double) : double :=
  match a with
  | NaN => NaN
  | infinity n => infinity (negb n)
  | finite x => finite (- x)
  end.

Definition add (a b : double) : double :=
  match a, b with
  | NaN, _ => NaN
  | _, NaN => NaN
  | infinity n, infinity m => if Bool.eqb n m then infinity n else NaN
  | infinity n, finite _ => infinity n
  | finite _, infinity m => infinity m
  | finite x, finite y => round (x + y)
  end.

Definition sub (a b : double) : double := add a (opp b).

Definition mul (a b : double) : double :=
  match a, b with
  | NaN, _ => NaN
  | _, NaN => NaN
  | infinity n, infinity m => infinity (xorb n m)
  | infinity n, finite y =>
      if Req_dec_T y 0 then NaN else infinity (xorb n (Rltb y 0))
  | finite x, infinity m =>
      if Req_dec_T x 0 then NaN else infinity (xorb (Rltb x 0) m)
  | finite x, finite y => round (x * y)
  end.

Definition div (a b : double) : double :=
  match a, b with
  | NaN, _ => NaN
  | _, NaN => NaN
  | infinity _, infinity _ => NaN
  | infinity n, finite y => infinity (xorb n (Rltb y 0))
  | finite _, infinity _ => finite 0
  | finite x, finite y =>
      if Req_dec_T y 0 then
        if Req_dec_T x 0 then NaN else infinity (Rltb x 0)
      else round (x / y)
  end.

(** [a < b]: false when one of the two is a NaN. *)
Definition ltb (a b : double) : bool :=
  match a, b with
  | NaN, _ => false
  | _, NaN => false
  | infinity n, infinity m => andb n (negb m)
  | infinity n, finite _ => n
  | finite _, infinity m => negb m
  | finite x, finite y => Rltb x y
  end.

(** [sqrt], [std::exp] and [std::pow], with the values the C standard gives
    them at zero and at the infinities.  [pow] is written for the exponents
    this code passes, which are finite and not integers; at a base of zero
    and a negative exponent it is [+infinity], the pole. *)
Definition sqrt (a : double) : double :=
  match a with
  | NaN => NaN
  | infinity n => if n then NaN else infinity false
  | finite x => if Rlt_dec x 0 then NaN else round (R_sqrt.sqrt x)
  end.

Definition exp (a : double) : double :=
  match a with
  | NaN => NaN
  | infinity n => if n then finite 0 else infinity false
  | finite x => round (Rtrigo_def.exp x)
  end.

Definition pow (a b : double) : double :=
  match b with
  | finite y =>
      if Req_dec_T y 0 then finite 1
      else
        match a with
        | NaN => NaN
        | infinity _ => if Rlt_dec y 0 then finite 0 else infinity false
        | finite x =>
            if Rlt_dec 0 x then round (Rpower x y)
            else if Req_dec_T x 0 then
                   if Rlt_dec y 0 then infinity false else finite 0
                 else NaN
        end
  | _ => NaN
  end.

(** [a <= b] and [a] is not negative, for the statements. *)
Definition le (a b : double) : Prop :=
  match a, b with
  | NaN, _ => False
  | _, NaN => False
  | infinity n, infinity m => n = true \/ m = false
  | infinity n, finite _ => n = true
  | finite _, infinity m => m = false
  | finite x, finite y => x <= y
  end.

Definition nonneg (a : double) : Prop := le (finite 0) a.

Definition is_nan (a : double) : bool :=
  match a with
  | NaN => true
  | _ => false
  end.

(** *** Symmetric tensors of doubles *)

Record SymmetricTensor2 : Type :=
  mkT2 { c00 : double; c11 : double; c01 : double }.

Record SymmetricTensor4 : Type :=
  mkT4 { row00 : SymmetricTensor2; row11 : SymmetricTensor2;
         row01 : SymmetricTensor2 }.

Definition add2 (a b : SymmetricTensor2) : SymmetricTensor2 :=
  mkT2 (add (c00 a) (c00 b)) (add (c11 a) (c11 b)) (add (c01 a) (c01 b)).

Definition sub2 (a b : SymmetricTensor2) : SymmetricTensor2 :=
  mkT2 (sub (c00 a) (c00 b)) (sub (c11 a) (c11 b)) (sub (c01 a) (c01 b)).

Definition scale2 (s : double) (a : SymmetricTensor2) : SymmetricTensor2 :=
  mkT2 (mul s (c00 a)) (mul s (c11 a)) (mul s (c01 a)).

Definition div2 (a : SymmetricTensor2) (s : double) : SymmetricTensor2 :=
  mkT2 (div (c00 a) s) (div (c11 a) s) (div (c01 a) s).

Definition add4 (a b : SymmetricTensor4) : SymmetricTensor4 :=
  mkT4 (add2 (row00 a) (row00 b)) (add2 (row11 a) (row11 b))
       (add2 (row01 a) (row01 b)).

Definition sub4 (a b : SymmetricTensor4) : SymmetricTensor4 :=
  mkT4 (sub2 (row00 a) (row00 b)) (sub2 (row11 a) (row11 b))
       (sub2 (row01 a) (row01 b)).

Definition scale4 (s : double) (a : SymmetricTensor4) : SymmetricTensor4 :=
  mkT4 (scale2 s (row00 a)) (scale2 s (row11 a)) (scale2 s (row01 a)).

Definition div4 (a : SymmetricTensor4) (s : double) : SymmetricTensor4 :=
  mkT4 (div2 (row00 a) s) (div2 (row11 a) s) (div2 (row01 a) s).

Definition unit_symmetric_tensor : SymmetricTensor2 :=
  mkT2 (finite 1) (finite 1) (finite 0).

Definition identity_tensor : SymmetricTensor4 :=
  mkT4 (mkT2 (finite 1) (finite 0) (finite 0))
       (mkT2 (finite 0) (finite 1) (finite 0))
       (mkT2 (finite 0) (finite 0) (finite (1 / 2))).

Definition outer_product (a b : SymmetricTensor2) : SymmetricTensor4 :=
  mkT4 (scale2 (c00 a) b) (scale2 (c11 a) b) (scale2 (c01 a) b).

Definition scalar_product (a b : SymmetricTensor2) : double :=
  add (add (mul (c00 a) (c00 b)) (mul (c11 a) (c11 b)))
      (mul (finite 2) (mul (c01 a) (c01 b))).

Definition first_invariant (t : SymmetricTensor2) : double :=
  add (c00 t) (c11 t).

(** *** [viscosity.cpp] *)

Section Viscosity.

Variable k : PhysicalConstants.

Definition transition_temperature : double := finite 263.215.
Definition A0_cold : double :=
  mul (mul (finite 3.985e-13) (finite (year_in_sec k))) (finite 1.0e18).
Definition A0_warm : double :=
  mul (mul (finite 1.916e3) (finite (year_in_sec k))) (finite 1.0e18).
Definition Q_cold : double := finite 60.
Definition Q_warm : double := finite 139.

Definition rate_factor (temperature : double) : double :=
  let cold := ltb temperature transition_temperature in
  let A0 := if cold then A0_cold else A0_warm in
  let Q := if cold then Q_cold else Q_warm in
  mul A0 (exp (div (opp Q) (mul (finite (ideal_gas k)) temperature))).

Definition viscosity (temperature strain_rate : double) : double :=
  let A := rate_factor temperature in
  div (pow (mul (mul A strain_rate) strain_rate)
           (div (finite (-1)) (finite 3)))
      (finite 2).

End Viscosity.

Module SSA.

Definition I : SymmetricTensor2 := unit_symmetric_tensor.
Definition II : SymmetricTensor4 := identity_tensor.
Definition C : SymmetricTensor4 := add4 II (outer_product I I).

(** The effective strain rate both tensor functions compute first. *)
Definition effective_strain_rate (eps : SymmetricTensor2) : double :=
  let tr := first_invariant eps in
  sqrt (div (add (scalar_product eps eps) (mul tr tr)) (finite 2)).

Section Constitutive.

Variable k : PhysicalConstants.

Definition nonlinear (T h : double) (eps : SymmetricTensor2)
  : SymmetricTensor4 :=
  let tr := first_invariant eps in
  let eps_e := sqrt (div (add (scalar_product eps eps) (mul tr tr)) (finite 2)) in
  let nu := mul h (viscosity k T eps_e) in
  scale4 (mul (finite 2) nu) C.

Definition linearized (T h : double) (eps : SymmetricTensor2)
  : SymmetricTensor4 :=
  let tr := first_invariant eps in
  let eps_e := sqrt (div (add (scalar_product eps eps) (mul tr tr)) (finite 2)) in
  let gamma := div2 (add2 eps (scale2 tr I)) eps_e in
  let nu := mul h (viscosity k T eps_e) in
  scale4 (mul (finite 2) nu)
    (sub4 C (div4 (outer_product gamma gamma) (finite 3))).

End Constitutive.

End SSA.

(** The tensor whose entries are all NaN, and a tensor with a NaN entry. *)
Definition nan_tensor : SymmetricTensor4 :=
  mkT4 (mkT2 NaN NaN NaN) (mkT2 NaN NaN NaN) (mkT2 NaN NaN NaN).

Definition has_nan (t : SymmetricTensor2) : bool :=
  orb (is_nan (c00 t)) (orb (is_nan (c11 t)) (is_nan (c01 t))).

End Binary64.

(** * Properties *)

(** ** Partial arithmetic *)

Lemma div_defined (x y : R) : y <> 0 -> div x y = Some (x / y).
Proof.
  intros Hy. unfold div. destruct (Req_dec_T y 0) as [E | _]; [contradiction | reflexivity].
Qed.

Lemma div_by_zero (x : R) : div x 0 = None.
Proof.
  unfold div. destruct (Req_dec_T 0 0) as [_ | N]; [reflexivity | now elim N].
Qed.

Lemma div_inv (x y z : R) : div x y = Some z -> y <> 0 /\ z = x / y.
Proof.
  unfold div. destruct (Req_dec_T y 0); [discriminate | intros [= <-]; auto].
Qed.

Lemma pow_positive_base (x y : R) : 0 < x -> pow x y = Some (Rpower x y).
Proof.
  intros Hx. unfold pow. destruct (Rlt_dec 0 x); [reflexivity | contradiction].
Qed.

Lemma pow_pole (y : R) : y < 0 -> pow 0 y = None.
Proof.
  intros Hy. unfold pow.
  destruct (Rlt_dec 0 0) as [F | _]; [lra |].
  destruct (Req_dec_T 0 0) as [_ | N]; [| now elim N].
  destruct (Rlt_dec 0 y); [lra |].
  destruct (Req_dec_T y 0); [lra | reflexivity].
Qed.

Lemma Rltb_true (x y : R) : x < y -> Rltb x y = true.
Proof. intros H. unfold Rltb. destruct (Rlt_dec x y); [reflexivity | contradiction]. Qed.

Lemma Rltb_false (x y : R) : y <= x -> Rltb x y = false.
Proof. intros H. unfold Rltb. destruct (Rlt_dec x y); [lra | reflexivity]. Qed.

Lemma div2_defined (a : SymmetricTensor2) (s : R) :
  s <> 0 -> div2 a s = Some (mkT2 (c00 a / s) (c11 a / s) (c01 a / s)).
Proof.
  intros Hs. unfold div2. rewrite !div_defined by assumption. reflexivity.
Qed.

Lemma div2_by_zero (a : SymmetricTensor2) : div2 a 0 = None.
Proof. unfold div2. rewrite div_by_zero. reflexivity. Qed.

Lemma div4_defined (a : SymmetricTensor4) (s : R) :
  s <> 0 ->
  div4 a s = Some (scale4 (/ s) a).
Proof.
  intros Hs. unfold div4. rewrite !div2_defined by assumption. cbn.
  unfold scale4, scale2.
  f_equal; f_equal; f_equal; unfold Rdiv; apply Rmult_comm.
Qed.

(** ** Tensor algebra *)

(** [identity_tensor] is the identity on symmetric rank-2 tensors. *)
Lemma identity_tensor_contract (e : SymmetricTensor2) :
  contract identity_tensor e = e.
Proof.
  destruct e as [a b c]. unfold contract, scalar_product. cbn. f_equal; lra.
Qed.

Lemma identity_tensor_components (i j k l : index) :
  component4 identity_tensor i j k l
  = (delta i k * delta j l + delta i l * delta j k) / 2.
Proof. destruct i, j, k, l; cbn; lra. Qed.

Lemma unit_outer_unit_components (i j k l : index) :
  component4 (outer_product unit_symmetric_tensor unit_symmetric_tensor) i j k l
  = delta i j * delta k l.
Proof. destruct i, j, k, l; cbn; lra. Qed.

Lemma component4_scale4 (s : R) (t : SymmetricTensor4) (i j k l : index) :
  component4 (scale4 s t) i j k l = s * component4 t i j k l.
Proof. destruct i, j, k, l; reflexivity. Qed.

Lemma component4_add4 (a b : SymmetricTensor4) (i j k l : index) :
  component4 (add4 a b) i j k l = component4 a i j k l + component4 b i j k l.
Proof. destruct i, j, k, l; reflexivity. Qed.

(** [C : e = e + tr(e) I]. *)
Lemma C_contract (e : SymmetricTensor2) :
  contract SSA.C e = add2 e (scale2 (first_invariant e) SSA.I).
Proof.
  destruct e as [a b c]. unfold contract, scalar_product, add2, scale2, first_invariant.
  cbn. f_equal; lra.
Qed.

(** The quadratic form [(t : e) : e] of a rank-4 tensor. *)
Lemma quadratic_scale4 (s : R) (t : SymmetricTensor4) (e : SymmetricTensor2) :
  scalar_product (contract (scale4 s t) e) e
  = s * scalar_product (contract t e) e.
Proof.
  destruct t as [[? ? ?] [? ? ?] [? ? ?]], e as [a b c].
  cbv [scalar_product contract scale4 scale2 c00 c11 c01 row00 row11 row01]. ring.
Qed.

Lemma quadratic_sub4 (t u : SymmetricTensor4) (e : SymmetricTensor2) :
  scalar_product (contract (sub4 t u) e) e
  = scalar_product (contract t e) e - scalar_product (contract u e) e.
Proof.
  destruct t as [[? ? ?] [? ? ?] [? ? ?]], u as [[? ? ?] [? ? ?] [? ? ?]],
    e as [a b c].
  cbv [scalar_product contract sub4 sub2 c00 c11 c01 row00 row11 row01]. ring.
Qed.

Lemma quadratic_outer (g e : SymmetricTensor2) :
  scalar_product (contract (outer_product g g) e) e
  = scalar_product g e * scalar_product g e.
Proof.
  destruct g as [x y z], e as [a b c].
  cbv [scalar_product contract outer_product scale2 c00 c11 c01 row00 row11 row01]. ring.
Qed.

Lemma quadratic_C (e : SymmetricTensor2) :
  scalar_product (contract SSA.C e) e
  = scalar_product e e + first_invariant e * first_invariant e.
Proof.
  rewrite C_contract. destruct e as [a b c].
  unfold scalar_product, add2, scale2, first_invariant. cbn. ring.
Qed.

Lemma scalar_product_scale2_l (s : R) (a b : SymmetricTensor2) :
  scalar_product (scale2 s a) b = s * scalar_product a b.
Proof.
  destruct a, b. unfold scalar_product, scale2. cbn. ring.
Qed.

Lemma strain_invariant_nonneg (eps : SymmetricTensor2) :
  0 <= (scalar_product eps eps
        + first_invariant eps * first_invariant eps) / 2.
Proof.
  destruct eps as [a b c]. unfold scalar_product, first_invariant. cbn. nra.
Qed.

Lemma effective_strain_rate_square (eps : SymmetricTensor2) :
  SSA.effective_strain_rate eps * SSA.effective_strain_rate eps
  = (scalar_product eps eps
     + first_invariant eps * first_invariant eps) / 2.
Proof.
  unfold SSA.effective_strain_rate. cbv zeta.
  apply sqrt_sqrt, strain_invariant_nonneg.
Qed.

(** ** Rheology *)

Section RheologyFacts.

Variable k : PhysicalConstants.
Hypothesis year_in_sec_positive : 0 < year_in_sec k.
Hypothesis ideal_gas_positive : 0 < ideal_gas k.

Lemma A0_cold_positive : 0 < A0_cold k.
Proof. unfold A0_cold. nra. Qed.

Lemma A0_warm_positive : 0 < A0_warm k.
Proof. unfold A0_warm. nra. Qed.

Lemma rate_factor_cold (T : R) :
  0 < T -> T < transition_temperature ->
  rate_factor k T = Some (A0_cold k * exp (- Q_cold / (ideal_gas k * T))).
Proof.
  intros HT Hc. unfold rate_factor. cbv zeta.
  rewrite Rltb_true by assumption.
  rewrite div_defined by nra. reflexivity.
Qed.

Lemma rate_factor_warm (T : R) :
  0 < T -> transition_temperature <= T ->
  rate_factor k T = Some (A0_warm k * exp (- Q_warm / (ideal_gas k * T))).
Proof.
  intros HT Hw. unfold rate_factor. cbv zeta.
  rewrite Rltb_false by assumption.
  rewrite div_defined by nra. reflexivity.
Qed.

Lemma rate_factor_positive (T : R) :
  0 < T -> exists A, rate_factor k T = Some A /\ 0 < A.
Proof.
  intros HT. destruct (Rlt_dec T transition_temperature) as [Hc | Hw].
  - eexists. split; [apply rate_factor_cold; assumption |].
    apply Rmult_lt_0_compat; [apply A0_cold_positive | apply exp_pos].
  - eexists. split; [apply rate_factor_warm; [assumption | lra] |].
    apply Rmult_lt_0_compat; [apply A0_warm_positive | apply exp_pos].
Qed.

Lemma viscosity_formula (T s : R) :
  0 < T -> s <> 0 ->
  exists A, rate_factor k T = Some A /\ 0 < A /\
            viscosity k T s = Some (Rpower (A * s * s) (-1 / 3) / 2).
Proof.
  intros HT Hs. destruct (rate_factor_positive T HT) as (A & HA & HApos).
  exists A. repeat split; try assumption.
  unfold viscosity. rewrite HA. cbn.
  rewrite pow_positive_base; [reflexivity |].
  rewrite Rmult_assoc. apply Rmult_lt_0_compat; [assumption | nra].
Qed.

Lemma viscosity_positive (T s : R) :
  0 < T -> s <> 0 -> exists v, viscosity k T s = Some v /\ 0 < v.
Proof.
  intros HT Hs. destruct (viscosity_formula T s HT Hs) as (A & _ & _ & Hv).
  eexists. split; [exact Hv |].
  unfold Rpower. pose proof (exp_pos (-1 / 3 * ln (A * s * s))). lra.
Qed.

Lemma viscosity_at_zero (T : R) : 0 < T -> viscosity k T 0 = None.
Proof.
  intros HT. destruct (rate_factor_positive T HT) as (A & HA & _).
  unfold viscosity. rewrite HA. cbn.
  replace (A * 0 * 0) with 0 by ring.
  rewrite pow_pole by lra. reflexivity.
Qed.

(** The value of [nonlinear] wherever the viscosity is defined. *)
Lemma nonlinear_value (T h : R) (eps : SymmetricTensor2) (v : R) :
  viscosity k T (SSA.effective_strain_rate eps) = Some v ->
  SSA.nonlinear k T h eps = Some (scale4 (2 * (h * v)) SSA.C).
Proof.
  intros Hv. unfold SSA.nonlinear. cbv zeta.
  unfold SSA.effective_strain_rate in Hv. cbv zeta in Hv. rewrite Hv. reflexivity.
Qed.

(** The value of [linearized] wherever the effective strain rate is not 0. *)
Lemma linearized_value (T h : R) (eps : SymmetricTensor2) (v : R) :
  SSA.effective_strain_rate eps <> 0 ->
  viscosity k T (SSA.effective_strain_rate eps) = Some v ->
  let e := SSA.effective_strain_rate eps in
  let gamma := scale2 (/ e) (add2 eps (scale2 (first_invariant eps) SSA.I)) in
  SSA.linearized k T h eps
  = Some (scale4 (2 * (h * v))
            (sub4 SSA.C (scale4 (/ 3) (outer_product gamma gamma)))).
Proof.
  intros He Hv e gamma. unfold SSA.linearized. cbv zeta.
  unfold SSA.effective_strain_rate in He, Hv, e. cbv zeta in He, Hv, e.
  fold e in He, Hv |- *.
  rewrite div2_defined by assumption. cbn [bind].
  rewrite Hv. cbn [bind].
  rewrite div4_defined by lra. cbn [bind].
  do 4 f_equal. subst gamma. unfold scale2, add2. cbn.
  f_equal; f_equal; unfold Rdiv; ring.
Qed.

(** C2.  [rate_factor] is the piecewise Arrhenius law: below the transition
    temperature 263.215 it is [A0_cold * exp (-60 / (R T))], from the
    transition temperature on it is [A0_warm * exp (-139 / (R T))]; at the
    transition temperature itself the test [T < 263.215] fails, so the second
    branch is the one taken.  Nothing relates the two branches there. *)
Theorem rate_factor_piecewise_arrhenius (T : R) :
  0 < T ->
  (T < 263.215 ->
   rate_factor k T = Some (A0_cold k * exp (- 60 / (ideal_gas k * T)))) /\
  (263.215 <= T ->
   rate_factor k T = Some (A0_warm k * exp (- 139 / (ideal_gas k * T)))) /\
  rate_factor k 263.215
  = Some (A0_warm k * exp (- 139 / (ideal_gas k * 263.215))).
Proof.
  intros HT. repeat split.
  - intros Hc. apply rate_factor_cold; assumption.
  - intros Hw. apply rate_factor_warm; assumption.
  - apply rate_factor_warm; unfold transition_temperature; lra.
Qed.

(** C1, as amended.  For [T > 0] and a strain rate [eps] of positive
    effective strain rate, [nonlinear(T, h, eps)] is [2 nu (I4 + I2 (x) I2)]
    with [nu = h * viscosity(T, eps_e)]: the rank-4 identity enters once, not
    twice.  In components the tensor is
    [2 nu ((d_ik d_jl + d_il d_jk) / 2 + d_ij d_kl)], and contracted with a
    symmetric [s] it gives [2 nu (s + tr(s) I2)]. *)
Theorem nonlinear_tensor_formula (T h : R) (eps : SymmetricTensor2) :
  0 < T -> 0 < SSA.effective_strain_rate eps ->
  exists v t,
    viscosity k T (SSA.effective_strain_rate eps) = Some v /\
    SSA.nonlinear k T h eps = Some t /\
    t = scale4 (2 * (h * v))
          (add4 identity_tensor
                (outer_product unit_symmetric_tensor unit_symmetric_tensor)) /\
    (forall i j k l,
       component4 t i j k l
       = 2 * (h * v)
         * ((delta i k * delta j l + delta i l * delta j k) / 2
            + delta i j * delta k l)) /\
    (forall s,
       contract t s
       = scale2 (2 * (h * v))
           (add2 s (scale2 (first_invariant s) unit_symmetric_tensor))).
Proof.
  intros HT He.
  destruct (viscosity_positive T (SSA.effective_strain_rate eps) HT)
    as (v & Hv & _); [lra |].
  exists v, (scale4 (2 * (h * v)) SSA.C).
  split; [exact Hv |]. split; [apply nonlinear_value, Hv |].
  split; [reflexivity |]. split.
  - intros i j k0 l. rewrite component4_scale4. unfold SSA.C, SSA.II, SSA.I.
    rewrite component4_add4, identity_tensor_components,
      unit_outer_unit_components. reflexivity.
  - intros [a b c]. unfold contract, scalar_product, scale2, add2, first_invariant.
    cbn. f_equal; lra.
Qed.

(** C9.  For [T > 0] and [eps] of positive effective strain rate, the
    tangent tensor contracted twice with [eps] is one third of the secant
    tensor contracted twice with [eps]:
    [(linearized : eps) : eps = 1/3 ((nonlinear : eps) : eps)]. *)
Theorem tangent_is_a_third_of_secant (T h : R) (eps : SymmetricTensor2) :
  0 < T -> 0 < SSA.effective_strain_rate eps ->
  exists n l,
    SSA.nonlinear k T h eps = Some n /\
    SSA.linearized k T h eps = Some l /\
    scalar_product (contract l eps) eps
    = 1 / 3 * scalar_product (contract n eps) eps.
Proof.
  intros HT He.
  destruct (viscosity_positive T (SSA.effective_strain_rate eps) HT)
    as (v & Hv & _); [lra |].
  eexists. eexists.
  split; [apply nonlinear_value, Hv |].
  split; [apply linearized_value; [lra | exact Hv] |].
  cbv zeta.
  pose proof (effective_strain_rate_square eps) as Hsq.
  set (e := SSA.effective_strain_rate eps) in *.
  set (q := scalar_product eps eps + first_invariant eps * first_invariant eps) in *.
  rewrite !quadratic_scale4, quadratic_sub4, quadratic_scale4, quadratic_outer,
    quadratic_C.
  fold q.
  rewrite scalar_product_scale2_l.
  replace (scalar_product
             (add2 eps (scale2 (first_invariant eps) SSA.I)) eps) with q
    by (subst q; destruct eps as [a b c];
        unfold scalar_product, first_invariant, add2, scale2; cbn; ring).
  assert (Hinv : / e * e = 1) by (apply Rinv_l; lra).
  assert (Hq : / e * q * (/ e * q) = 2 * q).
  { replace q with (2 * (e * e)) by lra.
    replace (/ e * (2 * (e * e)) * (/ e * (2 * (e * e))))
      with (2 * (2 * (e * e)) * ((/ e * e) * (/ e * e))) by ring.
    rewrite Hinv. ring. }
  rewrite Hq. lra.
Qed.

End RheologyFacts.

(** *** The rheology at sample inputs *)

Lemma example_constants_positive :
  0 < year_in_sec example_constants /\ 0 < ideal_gas example_constants.
Proof. cbn. split; lra. Qed.

Lemma example_strain_rate_effective :
  SSA.effective_strain_rate example_strain_rate = 1.
Proof.
  unfold SSA.effective_strain_rate, example_strain_rate, scalar_product,
    first_invariant. cbn.
  replace ((1 * 1 + 0 * 0 + 2 * (0 * 0) + (1 + 0) * (1 + 0)) / 2) with 1 by lra.
  apply sqrt_1.
Qed.

Lemma rate_factor_piecewise_arrhenius_witness :
  rate_factor example_constants 250
  = Some (A0_cold example_constants
          * exp (- 60 / (ideal_gas example_constants * 250))) /\
  rate_factor example_constants 270
  = Some (A0_warm example_constants
          * exp (- 139 / (ideal_gas example_constants * 270))).
Proof.
  destruct example_constants_positive as [_ Hg].
  destruct (rate_factor_piecewise_arrhenius example_constants Hg 250)
    as (Hcold & _ & _); [lra |].
  destruct (rate_factor_piecewise_arrhenius example_constants Hg 270)
    as (_ & Hwarm & _); [lra |].
  split; [apply Hcold | apply Hwarm]; lra.
Defined.

Lemma nonlinear_tensor_formula_witness :
  exists v t,
    viscosity example_constants 260
      (SSA.effective_strain_rate example_strain_rate) = Some v /\
    SSA.nonlinear example_constants 260 1 example_strain_rate = Some t /\
    t = scale4 (2 * (1 * v))
          (add4 identity_tensor
                (outer_product unit_symmetric_tensor unit_symmetric_tensor)).
Proof.
  destruct example_constants_positive as [Hy Hg].
  destruct (nonlinear_tensor_formula example_constants Hy Hg 260 1
              example_strain_rate) as (v & t & Hv & Ht & Heq & _).
  - lra.
  - rewrite example_strain_rate_effective. lra.
  - exists v, t. auto.
Defined.

(** C1, as stated, fails: at [T = 260], [h = 1] and uniaxial stretching the
    tensor [nonlinear] returns is not [2 nu (2 I4 + I2 (x) I2)]. *)
Lemma nonlinear_is_not_the_claimed_tensor :
  0 < 260 /\
  0 < SSA.effective_strain_rate example_strain_rate /\
  ~ (exists v,
       viscosity example_constants 260
         (SSA.effective_strain_rate example_strain_rate) = Some v /\
       SSA.nonlinear example_constants 260 1 example_strain_rate
       = Some (claimed_nonlinear_tensor (1 * v))).
Proof.
  destruct example_constants_positive as [Hy Hg].
  split; [lra |]. split; [rewrite example_strain_rate_effective; lra |].
  intros (v & Hv & Hn).
  destruct (viscosity_positive example_constants Hy Hg 260
              (SSA.effective_strain_rate example_strain_rate))
    as (v' & Hv' & Hpos).
  - lra.
  - rewrite example_strain_rate_effective. lra.
  - assert (v' = v) by congruence. subst v'.
    rewrite (nonlinear_value example_constants 260 1 _ v Hv) in Hn.
    assert (E : component4 (scale4 (2 * (1 * v)) SSA.C) i0 i0 i0 i0
                = component4 (claimed_nonlinear_tensor (1 * v)) i0 i0 i0 i0)
      by congruence.
    cbn in E. lra.
Qed.

Lemma tangent_is_a_third_of_secant_witness :
  exists n l,
    SSA.nonlinear example_constants 260 1 example_strain_rate = Some n /\
    SSA.linearized example_constants 260 1 example_strain_rate = Some l /\
    scalar_product (contract l example_strain_rate) example_strain_rate
    = 1 / 3 * scalar_product (contract n example_strain_rate) example_strain_rate.
Proof.
  destruct example_constants_positive as [Hy Hg].
  apply (tangent_is_a_third_of_secant example_constants Hy Hg 260 1
           example_strain_rate).
  - lra.
  - rewrite example_strain_rate_effective. lra.
Defined.

(** ** Loops and in-place updates *)

Lemma for_each_total {S X : Type} (xs : list X) (body : X -> S -> option S)
  (g : X -> S -> S) (s : S) :
  (forall x s', In x xs -> body x s' = Some (g x s')) ->
  for_each xs body s = Some (fold_left (fun s' x => g x s') xs s).
Proof.
  revert s. induction xs as [| x xs IH]; intros s Hbody; cbn.
  - reflexivity.
  - rewrite Hbody by (left; reflexivity). cbn.
    apply IH. intros y s' Hy. apply Hbody. right. exact Hy.
Qed.

Lemma fold_left_ext {S X : Type} (f g : S -> X -> S) (xs : list X) (s : S) :
  (forall s' x, In x xs -> f s' x = g s' x) ->
  fold_left f xs s = fold_left g xs s.
Proof.
  revert s. induction xs as [| x xs IH]; intros s H; cbn.
  - reflexivity.
  - rewrite H by (left; reflexivity). apply IH.
    intros s' y Hy. apply H. right. exact Hy.
Qed.

Lemma update_ext {A : Type} (l : list A) (i : nat) (f g : A -> A) :
  (forall x, f x = g x) -> update l i f = update l i g.
Proof.
  intros H. revert i. induction l as [| x l IH]; intros [| i]; cbn;
    try reflexivity.
  - now rewrite H.
  - now rewrite IH.
Qed.

Lemma update_id {A : Type} (l : list A) (i : nat) :
  update l i (fun x => x) = l.
Proof.
  revert i. induction l as [| x l IH]; intros [| i]; cbn; try reflexivity.
  now rewrite IH.
Qed.

Lemma update_update {A : Type} (l : list A) (i : nat) (f g : A -> A) :
  update (update l i f) i g = update l i (fun x => g (f x)).
Proof.
  revert i. induction l as [| x l IH]; intros [| i]; cbn; try reflexivity.
  now rewrite IH.
Qed.

Lemma update_app_length {A : Type} (l r : list A) (x : A) (f : A -> A) :
  update (l ++ x :: r) (length l) f = l ++ f x :: r.
Proof.
  induction l as [| y l IH]; cbn; [reflexivity | now rewrite IH].
Qed.

(** Updating one position repeatedly is one update with the composed
    function. *)
Lemma fold_update_same {A X : Type} (F : X -> A -> A) (xs : list X) (l : list A)
  (i : nat) :
  fold_left (fun l' x => update l' i (F x)) xs l
  = update l i (fun a => fold_left (fun a' x => F x a') xs a).
Proof.
  revert l. induction xs as [| x xs IH]; intros l; cbn.
  - symmetry. apply update_id.
  - rewrite IH, update_update. reflexivity.
Qed.

Lemma tabulate_length {A : Type} (n : nat) (f : nat -> A) :
  length (tabulate n f) = n.
Proof. unfold tabulate. now rewrite length_map, length_seq. Qed.

Lemma tabulate_S {A : Type} (n : nat) (f : nat -> A) :
  tabulate (S n) f = tabulate n f ++ [f n].
Proof. unfold tabulate. rewrite seq_S, map_app. reflexivity. Qed.

Lemma tabulate_ext {A : Type} (n : nat) (f g : nat -> A) :
  (forall i, (i < n)%nat -> f i = g i) -> tabulate n f = tabulate n g.
Proof.
  intros H. unfold tabulate. apply map_ext_in.
  intros i Hi. apply in_seq in Hi. apply H. lia.
Qed.

Lemma tabulate_const {A : Type} (n : nat) (c : A) :
  tabulate n (fun _ => c) = repeat c n.
Proof.
  induction n as [| n IH]; [reflexivity |].
  rewrite tabulate_S, IH. symmetry. apply repeat_cons.
Qed.

Lemma zero_matrix_table (n : nat) : zero_matrix n = table n (fun _ _ => 0).
Proof.
  unfold zero_matrix, table. rewrite <- (tabulate_const n (repeat 0 n)).
  apply tabulate_ext. intros i _. symmetry. apply tabulate_const.
Qed.

(** One pass of updates over all positions of a tabulated list. *)
Lemma fold_update_tabulate {A : Type} (F : nat -> A -> A) (n : nat)
  (g : nat -> A) (rest : list A) :
  fold_left (fun l i => update l i (F i)) (seq 0 n) (tabulate n g ++ rest)
  = tabulate n (fun i => F i (g i)) ++ rest.
Proof.
  revert rest. induction n as [| n IH]; intros rest.
  - reflexivity.
  - rewrite seq_S, fold_left_app, !tabulate_S, <- !app_assoc. cbn.
    rewrite IH.
    pose proof (update_app_length
                  (tabulate n (fun i => F i (g i))) rest (g n) (F n)) as H.
    rewrite tabulate_length in H. exact H.
Qed.

Lemma fold_update_tabulate_all {A : Type} (F : nat -> A -> A) (n : nat)
  (g : nat -> A) :
  fold_left (fun l i => update l i (F i)) (seq 0 n) (tabulate n g)
  = tabulate n (fun i => F i (g i)).
Proof.
  pose proof (fold_update_tabulate F n g []) as H.
  rewrite !app_nil_r in H. exact H.
Qed.

(** The two inner loops of an assembly: [m(i, j) += t i j] for all [i], [j]. *)
Lemma add_entries_table (n : nat) (g t : nat -> nat -> R) :
  fold_left
    (fun m i => fold_left (fun m' j => add_entry m' i j (t i j)) (seq 0 n) m)
    (seq 0 n) (table n g)
  = table n (fun i j => g i j + t i j).
Proof.
  unfold table, add_entry.
  rewrite (fold_left_ext _
             (fun m i =>
                update m i
                  (fun r =>
                     fold_left (fun r' j => add_to r' j (t i j)) (seq 0 n) r))).
  - rewrite fold_update_tabulate_all. apply tabulate_ext. intros i _.
    unfold add_to. apply (fold_update_tabulate_all (fun j old => old + t i j)).
  - intros m i _.
    apply (fold_update_same (fun j r => add_to r j (t i j))).
Qed.

(** The loop [v(i) += t i] for all [i]. *)
Lemma add_to_tabulate (n : nat) (g t : nat -> R) :
  fold_left (fun v i => add_to v i (t i)) (seq 0 n) (tabulate n g)
  = tabulate n (fun i => g i + t i).
Proof.
  unfold add_to. apply (fold_update_tabulate_all (fun i old => old + t i)).
Qed.

(** The quadrature loop around them: every entry is a running total. *)
Lemma accumulate_table {X : Type} (n : nat) (xs : list X)
  (t : X -> nat -> nat -> R) (g : nat -> nat -> R) :
  fold_left
    (fun m x =>
       fold_left
         (fun m' i => fold_left (fun m'' j => add_entry m'' i j (t x i j))
                        (seq 0 n) m')
         (seq 0 n) m)
    xs (table n g)
  = table n (fun i j => fold_left (fun total x => total + t x i j) xs (g i j)).
Proof.
  revert g. induction xs as [| x xs IH]; intros g; cbn.
  - reflexivity.
  - rewrite add_entries_table, IH. reflexivity.
Qed.

Lemma accumulate_tabulate {X : Type} (n : nat) (xs : list X)
  (t : X -> nat -> R) (g : nat -> R) :
  fold_left
    (fun v x => fold_left (fun v' i => add_to v' i (t x i)) (seq 0 n) v)
    xs (tabulate n g)
  = tabulate n (fun i => fold_left (fun total x => total + t x i) xs (g i)).
Proof.
  revert g. induction xs as [| x xs IH]; intros g; cbn.
  - reflexivity.
  - rewrite add_to_tabulate, IH. reflexivity.
Qed.

(** ** Vectors *)

Lemma dot_self_nonneg (a : list R) : 0 <= dot a a.
Proof. induction a as [| x a IH]; cbn; [lra | nra]. Qed.

Lemma vdiv_defined (a : gradient_type) (s : R) :
  s <> 0 -> vdiv a s = Some (map (fun x => x / s) a).
Proof.
  intros Hs. induction a as [| x a IH]; cbn; [reflexivity |].
  rewrite div_defined by assumption. cbn. rewrite IH. reflexivity.
Qed.

(** ** TotalVariation *)

(** The divisor [dA] is at least 1, whatever the gradient and [alpha]. *)
Lemma graph_area_element_ge_1 (alpha : R) (du_values : gradient_type) :
  1 <= graph_area_element alpha du_values.
Proof.
  unfold graph_area_element. cbv zeta.
  rewrite <- sqrt_1 at 1. apply sqrt_le_1_alt.
  pose proof (dot_self_nonneg (vscale alpha du_values)). lra.
Qed.

Lemma graph_area_element_nonzero (alpha : R) (du_values : gradient_type) :
  graph_area_element alpha du_values <> 0.
Proof. pose proof (graph_area_element_ge_1 alpha du_values). lra. Qed.

(** The quadrature loops of [filter] never fail, and leave the closed-form
    cell matrix. *)
Lemma filter_cell_closed_form (tv : TotalVariation) (u : FieldType primal)
  (cell : cell_iterator) :
  filter_cell tv u cell = Some (filter_cell_matrix (alpha tv) u cell).
Proof.
  unfold filter_cell, filter_cell_matrix. cbv zeta.
  set (dsc := get_discretization u).
  set (n := dofs_per_cell dsc).
  set (T := fun q i j =>
              filter_integrand (alpha tv)
                (get_function_gradients dsc cell (get_coefficients u) q)
                (shape_value dsc cell i q) (shape_value dsc cell j q)
                (shape_gradient dsc cell i q) (shape_gradient dsc cell j q)
                (JxW dsc cell q)).
  rewrite (for_each_total _ _
             (fun q m =>
                fold_left
                  (fun m' i =>
                     fold_left (fun m'' j => add_entry m'' i j (T q i j))
                       (seq 0 n) m')
                  (seq 0 n) m)).
  - rewrite zero_matrix_table, accumulate_table. reflexivity.
  - intros q m _. apply for_each_total. intros i m' _.
    apply for_each_total. intros j m'' _.
    pose proof (graph_area_element_nonzero (alpha tv)
                  (get_function_gradients dsc cell (get_coefficients u) q)) as HdA.
    unfold graph_area_element in HdA. cbv zeta in HdA.
    rewrite vdiv_defined by exact HdA. cbn [bind].
    rewrite div_defined by exact HdA. cbn [bind].
    reflexivity.
Qed.

(** The quadrature loops of [derivative] never fail, and leave the
    closed-form cell vector. *)
Lemma derivative_cell_closed_form (tv : TotalVariation) (u : FieldType primal)
  (cell : cell_iterator) :
  derivative_cell tv u cell = Some (derivative_cell_vector (alpha tv) u cell).
Proof.
  unfold derivative_cell, derivative_cell_vector. cbv zeta.
  set (dsc := get_discretization u).
  set (n := dofs_per_cell dsc).
  set (T := fun q i =>
              derivative_integrand (alpha tv)
                (get_function_gradients dsc cell (get_coefficients u) q)
                (shape_gradient dsc cell i q) (JxW dsc cell q)).
  rewrite (for_each_total _ _
             (fun q v => fold_left (fun v' i => add_to v' i (T q i)) (seq 0 n) v)).
  - unfold zero_vector. rewrite <- tabulate_const, accumulate_tabulate.
    reflexivity.
  - intros q v _. apply for_each_total. intros i v' _.
    pose proof (graph_area_element_nonzero (alpha tv)
                  (get_function_gradients dsc cell (get_coefficients u) q)) as HdA.
    unfold graph_area_element in HdA. cbv zeta in HdA.
    rewrite div_defined by exact HdA. cbn [bind].
    reflexivity.
Qed.

(** The cell loop of [filter]: the operator is assembled from the zero
    matrix out of the closed-form cell matrices. *)
Lemma filter_matrix_closed_form (tv : TotalVariation) (u : FieldType primal) :
  filter_matrix tv u
  = Some (fold_left
            (fun A cell =>
               distribute_local_to_global_matrix
                 (get_constraints (get_discretization u))
                 (filter_cell_matrix (alpha tv) u cell)
                 (get_dof_indices (get_discretization u) cell)
                 A)
            (active_cell_iterators (get_discretization u))
            (zero_matrix (n_dofs (get_discretization u)))).
Proof.
  unfold filter_matrix. cbv zeta.
  apply (for_each_total _ _
           (fun cell A =>
              distribute_local_to_global_matrix
                (get_constraints (get_discretization u))
                (filter_cell_matrix (alpha tv) u cell)
                (get_dof_indices (get_discretization u) cell)
                A)).
  intros cell A _. rewrite filter_cell_closed_form. reflexivity.
Qed.

Lemma nth_tabulate {A : Type} (n i : nat) (f : nat -> A) (d : A) :
  (i < n)%nat -> nth i (tabulate n f) d = f i.
Proof.
  intros Hi. unfold tabulate.
  rewrite (nth_indep _ d (f 0%nat)) by (now rewrite length_map, length_seq).
  rewrite map_nth, seq_nth by assumption. reflexivity.
Qed.

Lemma table_entry (n i j : nat) (f : nat -> nat -> R) :
  (i < n)%nat -> (j < n)%nat -> nth j (nth i (table n f) []) 0 = f i j.
Proof.
  intros Hi Hj. unfold table. rewrite !nth_tabulate by assumption. reflexivity.
Qed.

(** The cell loop of [derivative] never fails. *)
Lemma TotalVariation_derivative_closed_form (tv : TotalVariation)
  (u : FieldType primal) :
  TotalVariation_derivative tv u
  = Some (mkField (get_discretization u)
            (fold_left
               (fun g cell =>
                  distribute_local_to_global_vector
                    (get_constraints (get_discretization u))
                    (derivative_cell_vector (alpha tv) u cell)
                    (get_dof_indices (get_discretization u) cell)
                    g)
               (active_cell_iterators (get_discretization u))
               (zero_vector (n_dofs (get_discretization u))))).
Proof.
  unfold TotalVariation_derivative. cbv zeta.
  rewrite (for_each_total _ _
             (fun cell g =>
                distribute_local_to_global_vector
                  (get_constraints (get_discretization u))
                  (derivative_cell_vector (alpha tv) u cell)
                  (get_dof_indices (get_discretization u) cell)
                  g)).
  - reflexivity.
  - intros cell g _. rewrite derivative_cell_closed_form. reflexivity.
Qed.

Section TotalVariationFilter.

Variable linear_solve :
  SparseMatrix -> Vector -> Vector -> ConstraintMatrix -> option Vector.

(** What [linear_solve] is for: a vector it returns solves the system. *)
Hypothesis linear_solve_solves :
  forall A x0 b c x, linear_solve A x0 b c = Some x -> vmult A x = b.

(** C3.  [filter(u_ref, f)] builds its operator on the call, from the zero
    matrix and from [alpha] and [u_ref] alone: on every cell the loops leave
    the cell matrix whose entry [(i, j)] is the sum over the quadrature
    points of
    [(phi_i phi_j + alpha^2 (dphi_i . dphi_j - (dphi_i . tau)(tau . dphi_j)) / dA) dx]
    with [du = alpha * grad u_ref], [dA = sqrt (du . du + 1)] and
    [tau = du / dA]; the cell matrices are distributed into the zero matrix,
    giving [A(u_ref)]; and the field returned is what [linear_solve] returns
    for [A(u_ref)] and [f], a solution [v] of [A(u_ref) v = f]. *)
Theorem TotalVariation_filter_linearized_solve (tv : TotalVariation)
  (u : FieldType primal) (f : FieldType dual) :
  (forall cell,
     filter_cell tv u cell = Some (filter_cell_matrix (alpha tv) u cell)) /\
  (forall cell i j,
     (i < dofs_per_cell (get_discretization u))%nat ->
     (j < dofs_per_cell (get_discretization u))%nat ->
     nth j (nth i (filter_cell_matrix (alpha tv) u cell) []) 0
     = sum_over (seq 0 (quad_size (get_discretization u)))
         (fun q =>
            let dsc := get_discretization u in
            let dx := JxW dsc cell q in
            let du :=
              vscale (alpha tv)
                (get_function_gradients dsc cell (get_coefficients u) q) in
            let dA := sqrt (dot du du + 1) in
            let tau := map (fun x => x / dA) du in
            let phi_i := shape_value dsc cell i q in
            let phi_j := shape_value dsc cell j q in
            let d_phi_i := shape_gradient dsc cell i q in
            let d_phi_j := shape_gradient dsc cell j q in
            (phi_i * phi_j
             + alpha tv * alpha tv
               * ((dot d_phi_i d_phi_j - dot d_phi_i tau * dot tau d_phi_j)
                  / dA)) * dx)) /\
  filter_matrix tv u = Some (TotalVariation_operator (alpha tv) u) /\
  TotalVariation_filter linear_solve tv u f
  = (x <- linear_solve (TotalVariation_operator (alpha tv) u)
            (zero_vector (n_dofs (get_discretization u)))
            (get_coefficients f)
            (get_constraints (get_discretization u)) ;;
     Some (mkField (get_discretization u) x)) /\
  (forall v,
     TotalVariation_filter linear_solve tv u f = Some v ->
     get_discretization v = get_discretization u /\
     vmult (TotalVariation_operator (alpha tv) u) (get_coefficients v)
     = get_coefficients f).
Proof.
  assert (Hfilter :
            TotalVariation_filter linear_solve tv u f
            = (x <- linear_solve (TotalVariation_operator (alpha tv) u)
                      (zero_vector (n_dofs (get_discretization u)))
                      (get_coefficients f)
                      (get_constraints (get_discretization u)) ;;
               Some (mkField (get_discretization u) x))).
  { unfold TotalVariation_filter. cbv zeta.
    rewrite filter_matrix_closed_form. reflexivity. }
  split; [intros cell; apply filter_cell_closed_form |].
  split.
  { intros cell i j Hi Hj. unfold filter_cell_matrix. cbv zeta.
    rewrite table_entry by assumption. reflexivity. }
  split; [apply filter_matrix_closed_form |].
  split; [exact Hfilter |].
  intros v Hv. rewrite Hfilter in Hv.
  destruct (linear_solve (TotalVariation_operator (alpha tv) u)
              (zero_vector (n_dofs (get_discretization u)))
              (get_coefficients f)
              (get_constraints (get_discretization u))) as [x |] eqn:Hx;
    [| discriminate].
  cbn in Hv. injection Hv as <-. cbn. split; [reflexivity |].
  apply (linear_solve_solves _ _ _ _ _ Hx).
Qed.

End TotalVariationFilter.

(** C10.  The constructor of [TotalVariation] keeps [alpha] and nothing of
    its [Discretization] argument: built from two discretizations and the
    same [alpha], the two objects are equal, and so are the results of
    [operator()], [derivative] and [filter] on every field.  What these
    return lives on the discretization of the field argument. *)
Theorem TotalVariation_ignores_discretization
  (linear_solve :
     SparseMatrix -> Vector -> Vector -> ConstraintMatrix -> option Vector)
  (d1 d2 : Discretization) (a : R) (u : FieldType primal) (f : FieldType dual) :
  TotalVariation_new d1 a = TotalVariation_new d2 a /\
  alpha (TotalVariation_new d1 a) = a /\
  TotalVariation_value (TotalVariation_new d1 a) u
  = TotalVariation_value (TotalVariation_new d2 a) u /\
  TotalVariation_derivative (TotalVariation_new d1 a) u
  = TotalVariation_derivative (TotalVariation_new d2 a) u /\
  TotalVariation_filter linear_solve (TotalVariation_new d1 a) u f
  = TotalVariation_filter linear_solve (TotalVariation_new d2 a) u f /\
  (forall g, TotalVariation_derivative (TotalVariation_new d1 a) u = Some g ->
             get_discretization g = get_discretization u) /\
  (forall v, TotalVariation_filter linear_solve (TotalVariation_new d1 a) u f
             = Some v ->
             get_discretization v = get_discretization u).
Proof.
  assert (Hnew : TotalVariation_new d1 a = TotalVariation_new d2 a)
    by reflexivity.
  split; [exact Hnew |]. split; [reflexivity |].
  rewrite <- Hnew. repeat (split; [reflexivity |]). split.
  - intros g Hg. rewrite TotalVariation_derivative_closed_form in Hg.
    injection Hg as <-. reflexivity.
  - intros v Hv. unfold TotalVariation_filter in Hv. cbv zeta in Hv.
    destruct (filter_matrix (TotalVariation_new d1 a) u) as [A |];
      [| discriminate].
    cbn [bind] in Hv.
    destruct (linear_solve A _ _ _) as [x |]; [| discriminate].
    injection Hv as <-. reflexivity.
Qed.

(** ** SquareGradient *)

Lemma vsub_length (a b : Vector) :
  length a = length b -> length (vsub a b) = length a.
Proof.
  revert b. induction a as [| x a IH]; intros [| y b] H; cbn in *;
    try reflexivity; try discriminate.
  f_equal. apply IH. now injection H.
Qed.

Lemma dot_vsub_r (r v u : list R) :
  length v = length u -> dot r (vsub v u) = dot r v - dot r u.
Proof.
  revert v u. induction r as [| x r IH]; intros [| y v] [| z u] H; cbn in *;
    try lra; try discriminate.
  rewrite IH by (now injection H). ring.
Qed.

Lemma vmult_vsub (A : SparseMatrix) (v u : Vector) :
  length v = length u ->
  vmult A (vsub v u) = vsub (vmult A v) (vmult A u).
Proof.
  intros H. unfold vmult. induction A as [| r A IH]; cbn; [reflexivity |].
  rewrite dot_vsub_r, IH by assumption. reflexivity.
Qed.

Lemma vadd_vsub (a a' b b' : Vector) :
  length a = length a' -> length b = length b' ->
  vsub (vadd a b) (vadd a' b') = vadd (vsub a a') (vsub b b').
Proof.
  revert a' b b'.
  induction a as [| x a IH]; intros [| x' a'] [| y b] [| y' b'] Ha Hb;
    cbn in *; try reflexivity; try discriminate.
  rewrite IH by (now injection Ha + now injection Hb). f_equal. ring.
Qed.

Lemma vmult_length (A : SparseMatrix) (v : Vector) :
  length (vmult A v) = length A.
Proof. unfold vmult. apply length_map. Qed.

(** The operator [M + L] is linear. *)
Lemma SquareGradient_operator_vsub (sg : SquareGradient) (v u : Vector) :
  length v = length u ->
  SquareGradient_operator sg (vsub v u)
  = vsub (SquareGradient_operator sg v) (SquareGradient_operator sg u).
Proof.
  intros H. unfold SquareGradient_operator.
  rewrite !vmult_vsub by assumption.
  symmetry. apply vadd_vsub; now rewrite !vmult_length.
Qed.

Lemma dot_vsub_swap (a b : Vector) :
  dot (vsub a b) (vsub a b) = dot (vsub b a) (vsub b a).
Proof.
  revert b. induction a as [| x a IH]; intros [| y b]; cbn; try reflexivity.
  rewrite IH. ring.
Qed.

Lemma l2_norm_vsub_swap (a b : Vector) :
  l2_norm (vsub a b) = l2_norm (vsub b a).
Proof. unfold l2_norm. now rewrite dot_vsub_swap. Qed.

Lemma dot_self_zero (a : Vector) : dot a a = 0 -> a = repeat 0 (length a).
Proof.
  induction a as [| x a IH]; cbn; [reflexivity |].
  intros H. pose proof (dot_self_nonneg a) as Ha.
  assert (Hx : x = 0) by nra.
  assert (Hd : dot a a = 0) by nra.
  rewrite Hx, <- IH by assumption. reflexivity.
Qed.

Lemma l2_norm_zero (a : Vector) : l2_norm a = 0 -> a = repeat 0 (length a).
Proof.
  unfold l2_norm. intros H. apply dot_self_zero.
  apply sqrt_eq_0; [apply dot_self_nonneg | exact H].
Qed.

Lemma vsub_zero (a b : Vector) :
  length a = length b -> vsub a b = repeat 0 (length (vsub a b)) -> a = b.
Proof.
  revert b. induction a as [| x a IH]; intros [| y b] Hl H; cbn in *;
    try reflexivity; try discriminate.
  injection H as Hx Hr. f_equal; [lra |].
  apply IH; [now injection Hl | exact Hr].
Qed.

Lemma l2_norm_vsub_self (a : Vector) : l2_norm (vsub a a) = 0.
Proof.
  unfold l2_norm.
  replace (dot (vsub a a) (vsub a a)) with 0; [apply sqrt_0 |].
  induction a as [| x a IH]; cbn; [reflexivity |].
  rewrite <- IH. ring.
Qed.

Section SquareGradientFilter.

Variable solver_cg :
  nat -> R -> (Vector -> Vector) -> Vector -> Vector -> (Vector -> Vector)
  -> option Vector.
Variable create_laplace_matrix : Discretization -> R -> SparseMatrix.

(** What [SolverCG] under [SolverControl(max_steps, tolerance)] is for: a
    vector it returns has the size of the initial guess and leaves a residual
    of norm at most [tolerance]. *)
Hypothesis solver_cg_residual :
  forall max_steps tolerance A x0 b P x,
    solver_cg max_steps tolerance A x0 b P = Some x ->
    length x = length x0 /\ l2_norm (vsub b (A x)) <= tolerance.


(** C5.  Round trip.  Let [M] be the mass matrix of the discretization and
    [L] its Laplace matrix of coefficient [alpha^2], let [M + L] be bounded
    below by [c > 0] on coefficient vectors (it is symmetric positive
    definite) and let [u] be a field on the discretization.  If the solver
    converges on the dual field [M u + L u], [filter] returns a field [v] on
    the same discretization with [|v - u| <= 1e-10 / c]: [u] up to the
    solver's tolerance.  When the solve is exact, that is when
    [M v + L v = M u + L u], [v = u]. *)
Theorem SquareGradient_filter_round_trip (dsc : Discretization) (a c : R)
  (u0 u : FieldType primal) :
  get_discretization u = dsc ->
  length (get_coefficients u) = n_dofs dsc ->
  0 < c ->
  (forall w, length w = n_dofs dsc ->
     c * l2_norm w
     <= l2_norm (vadd (vmult (get_mass_matrix dsc) w)
                      (vmult (create_laplace_matrix dsc (a * a)) w))) ->
  SquareGradient_filter solver_cg
    (SquareGradient_new create_laplace_matrix dsc a) u0
    (mkField dsc
       (vadd (vmult (get_mass_matrix dsc) (get_coefficients u))
             (vmult (create_laplace_matrix dsc (a * a))
                    (get_coefficients u)))) <> None ->
  exists v,
    SquareGradient_filter solver_cg
      (SquareGradient_new create_laplace_matrix dsc a) u0
      (mkField dsc
         (vadd (vmult (get_mass_matrix dsc) (get_coefficients u))
               (vmult (create_laplace_matrix dsc (a * a))
                      (get_coefficients u)))) = Some v /\
    get_discretization v = dsc /\
    length (get_coefficients v) = n_dofs dsc /\
    l2_norm (vsub (get_coefficients v) (get_coefficients u)) <= 1.0e-10 / c /\
    (vadd (vmult (get_mass_matrix dsc) (get_coefficients v))
          (vmult (create_laplace_matrix dsc (a * a)) (get_coefficients v))
     = vadd (vmult (get_mass_matrix dsc) (get_coefficients u))
            (vmult (create_laplace_matrix dsc (a * a)) (get_coefficients u)) ->
     get_coefficients v = get_coefficients u).
Proof.
  intros Hdsc Hlen Hc Hcoercive Hconv.
  set (sg := SquareGradient_new create_laplace_matrix dsc a) in *.
  assert (Hop : forall w,
             vadd (vmult (get_mass_matrix dsc) w)
                  (vmult (create_laplace_matrix dsc (a * a)) w)
             = SquareGradient_operator sg w) by reflexivity.
  rewrite Hop in *.
  assert (Hcoercive' : forall w, length w = n_dofs dsc ->
             c * l2_norm w <= l2_norm (SquareGradient_operator sg w)).
  { intros w Hw. rewrite <- Hop. apply Hcoercive, Hw. }
  unfold SquareGradient_filter in *. cbv zeta in *.
  match type of Hconv with
  | context [solver_cg ?n ?t ?A ?x0 ?b ?P] =>
      destruct (solver_cg n t A x0 b P) as [x |] eqn:Hx;
      [| now elim Hconv]
  end.
  destruct (solver_cg_residual _ _ _ _ _ _ _ Hx) as [Hxlen Hres].
  cbn [get_coefficients get_discretization new_field] in Hxlen, Hres.
  unfold zero_vector in Hxlen. rewrite repeat_length in Hxlen.
  exists (mkField dsc x).
  split; [reflexivity |]. split; [reflexivity |].
  cbn [get_coefficients]. split; [exact Hxlen |].
  rewrite Hop.
  assert (Hdiff : length (vsub x (get_coefficients u)) = n_dofs dsc)
    by (rewrite vsub_length; congruence).
  assert (Hlin :
            vsub (SquareGradient_operator sg (get_coefficients u))
                 (SquareGradient_operator sg x)
            = SquareGradient_operator sg (vsub (get_coefficients u) x))
    by (symmetry; apply SquareGradient_operator_vsub; congruence).
  assert (Hbound :
            forall r,
              l2_norm (vsub (SquareGradient_operator sg (get_coefficients u))
                            (SquareGradient_operator sg x)) <= r ->
              c * l2_norm (vsub x (get_coefficients u)) <= r).
  { intros r Hr. rewrite Hlin in Hr.
    rewrite l2_norm_vsub_swap.
    eapply Rle_trans; [apply Hcoercive' | exact Hr].
    rewrite vsub_length; congruence. }
  split.
  - specialize (Hbound _ Hres).
    apply (Rmult_le_reg_l c); [exact Hc |].
    replace (c * (1.0e-10 / c)) with 1.0e-10 by (field; lra).
    exact Hbound.
  - intros Hexact.
    assert (Hzero :
              l2_norm (vsub (SquareGradient_operator sg (get_coefficients u))
                            (SquareGradient_operator sg x)) = 0).
    { rewrite Hexact. apply l2_norm_vsub_self. }
    assert (Hn : l2_norm (vsub x (get_coefficients u)) = 0).
    { specialize (Hbound 0 (Req_le _ _ Hzero)).
      assert (0 <= l2_norm (vsub x (get_coefficients u)))
        by apply sqrt_pos.
      nra. }
    apply vsub_zero; [congruence |].
    apply l2_norm_zero, Hn.
Qed.

End SquareGradientFilter.

(** *** The regularizers on the example discretization *)

Lemma example_linear_solve_solves :
  forall A x0 b c x, example_linear_solve A x0 b c = Some x -> vmult A x = b.
Proof.
  intros A x0 b c x. unfold example_linear_solve.
  destruct (list_eq_dec Req_dec_T (vmult A b) b) as [E | _]; [| discriminate].
  intros [= <-]. exact E.
Qed.


Lemma example_operator (a x : R) :
  TotalVariation_operator a (example_field primal x) = [[1]].
Proof.
  unfold TotalVariation_operator, filter_cell_matrix, filter_integrand,
    graph_normal, sum_over, table, tabulate.
  cbn. unfold add_entry, add_to. cbn. do 2 f_equal.
  generalize (graph_area_element a [0]). intros dA. lra.
Qed.

Lemma TotalVariation_filter_linearized_solve_witness :
  TotalVariation_filter example_linear_solve (mkTotalVariation 2)
    (example_field primal 3) (example_field dual 5)
  = Some (example_field primal 5) /\
  vmult (TotalVariation_operator 2 (example_field primal 3)) [5] = [5].
Proof.
  destruct (TotalVariation_filter_linearized_solve example_linear_solve
              example_linear_solve_solves (mkTotalVariation 2)
              (example_field primal 3) (example_field dual 5))
    as (_ & _ & _ & Hfilter & Hsolves).
  assert (Hv : TotalVariation_filter example_linear_solve (mkTotalVariation 2)
                 (example_field primal 3) (example_field dual 5)
               = Some (example_field primal 5)).
  { rewrite Hfilter. cbn [alpha]. rewrite example_operator.
    unfold example_linear_solve. cbn [get_coefficients example_field].
    destruct (list_eq_dec Req_dec_T (vmult [[1]] [5]) [5]) as [_ | N].
    - reflexivity.
    - exfalso. apply N. cbn. f_equal. lra. }
  split; [exact Hv |]. apply (Hsolves _ Hv).
Defined.


(** On the example discretization [M + L] is the identity. *)
Lemma example_operator_identity (a x : R) :
  SquareGradient_operator
    (SquareGradient_new example_laplace_matrix example_discretization a) [x]
  = [x].
Proof.
  unfold SquareGradient_operator, SquareGradient_new, example_laplace_matrix,
    sum_over, table, tabulate.
  cbn. f_equal. lra.
Qed.

(** On the interval, with [alpha = 1], [M + L] is the matrix of rows
    [(4/3, -5/6)] and [(-5/6, 4/3)]. *)
Lemma example_interval_operator (x y : R) :
  vadd (vmult (get_mass_matrix example_interval) [x; y])
       (vmult (example_laplace_matrix example_interval (1 * 1)) [x; y])
  = [4 / 3 * x - 5 / 6 * y; 4 / 3 * y - 5 / 6 * x].
Proof.
  unfold example_laplace_matrix, sum_over, table, tabulate.
  cbn. f_equal; [lra |]. f_equal. lra.
Qed.

Lemma example_direct_solver_residual :
  forall max_steps tolerance A x0 b P x,
    example_direct_solver max_steps tolerance A x0 b P = Some x ->
    length x = length x0 /\ l2_norm (vsub b (A x)) <= tolerance.
Proof.
  intros n tol A x0 b P x. unfold example_direct_solver. cbv zeta.
  destruct (Nat.eq_dec (length x0) 2) as [El | _]; [| discriminate].
  destruct (Rle_dec _ tol) as [Hr | _]; [| discriminate].
  intros [= <-]. split; [now rewrite El | exact Hr].
Qed.

Lemma example_interval_SquareGradient_operator (x y : R) :
  SquareGradient_operator
    (SquareGradient_new example_laplace_matrix example_interval 1) [x; y]
  = [4 / 3 * x - 5 / 6 * y; 4 / 3 * y - 5 / 6 * x].
Proof. apply example_interval_operator. Qed.

(** There the direct solver recovers [(1, 3)] from [(M + L) (1, 3)], which
    is [(-7/6, 19/6)]. *)
Lemma example_interval_solve :
  SquareGradient_filter example_direct_solver
    (SquareGradient_new example_laplace_matrix example_interval 1)
    (mkField example_interval [0; 0])
    (mkField example_interval [-7 / 6; 19 / 6])
  = Some (mkField example_interval [1; 3]).
Proof.
  unfold SquareGradient_filter, example_direct_solver. cbv zeta.
  rewrite !example_interval_SquareGradient_operator.
  cbn [get_coefficients get_discretization new_field n_dofs example_interval
       zero_vector repeat length nth].
  match goal with
  | |- context [Some [?p; ?q]] =>
      replace p with 1 by field; replace q with 3 by field
  end.
  destruct (Nat.eq_dec 2 2) as [_ | N]; [| now elim N].
  destruct (Rle_dec _ _) as [_ | N]; [reflexivity |].
  exfalso. apply N. unfold l2_norm. cbn [vsub dot].
  match goal with
  | |- sqrt ?e <= _ => replace e with 0 by field
  end.
  rewrite sqrt_0. lra.
Qed.

Lemma SquareGradient_filter_round_trip_witness :
  exists v,
    SquareGradient_filter example_direct_solver
      (SquareGradient_new example_laplace_matrix example_interval 1)
      (mkField example_interval [0; 0])
      (mkField example_interval
         (vadd (vmult (get_mass_matrix example_interval) [1; 3])
               (vmult (example_laplace_matrix example_interval (1 * 1))
                      [1; 3]))) = Some v /\
    l2_norm (vsub (get_coefficients v) [1; 3]) <= 1.0e-10 / (1 / 2).
Proof.
  assert (Hf : vadd (vmult (get_mass_matrix example_interval) [1; 3])
                    (vmult (example_laplace_matrix example_interval (1 * 1))
                           [1; 3])
               = [-7 / 6; 19 / 6]).
  { rewrite example_interval_operator. f_equal; [lra |]. f_equal. lra. }
  destruct (SquareGradient_filter_round_trip example_direct_solver
              example_laplace_matrix example_direct_solver_residual
              example_interval 1 (1 / 2)
              (mkField example_interval [0; 0])
              (mkField example_interval [1; 3]))
    as (v & Hv & _ & _ & Hclose & _).
  - reflexivity.
  - reflexivity.
  - lra.
  - intros [| x [| y [| z w]]] Hw; try discriminate.
    rewrite example_interval_operator. unfold l2_norm. cbn [dot].
    replace (1 / 2) with (sqrt (1 / 2 * (1 / 2)))
      by (apply sqrt_square; lra).
    rewrite <- sqrt_mult_alt by lra.
    apply sqrt_le_1_alt.
    pose proof (Rle_0_sqr (x - y)) as Hsq. unfold Rsqr in Hsq. lra.
  - cbn [get_coefficients]. rewrite Hf, example_interval_solve. discriminate.
  - exists v. split; [exact Hv | exact Hclose].
Defined.

(** ** Sums and scalar products *)

Lemma fold_left_total {X : Type} (xs : list X) (f : X -> R) (a : R) :
  fold_left (fun total x => total + f x) xs a = a + sum_over xs f.
Proof.
  unfold sum_over. revert a. induction xs as [| x xs IH]; intros a; cbn.
  - lra.
  - rewrite IH, (IH (0 + f x)). lra.
Qed.

Lemma sum_over_cons {X : Type} (x : X) (xs : list X) (f : X -> R) :
  sum_over (x :: xs) f = f x + sum_over xs f.
Proof. unfold sum_over at 1. cbn. rewrite fold_left_total. lra. Qed.

Lemma sum_over_nil {X : Type} (f : X -> R) : sum_over [] f = 0.
Proof. reflexivity. Qed.

Lemma sum_over_ext {X : Type} (xs : list X) (f g : X -> R) :
  (forall x, In x xs -> f x = g x) -> sum_over xs f = sum_over xs g.
Proof.
  induction xs as [| x xs IH]; intros H; [reflexivity |].
  rewrite !sum_over_cons, H, IH; [reflexivity | | left; reflexivity].
  intros y Hy. apply H. right. exact Hy.
Qed.

Lemma sum_over_le {X : Type} (xs : list X) (f g : X -> R) :
  (forall x, In x xs -> f x <= g x) -> sum_over xs f <= sum_over xs g.
Proof.
  induction xs as [| x xs IH]; intros H; [unfold sum_over; cbn; lra |].
  rewrite !sum_over_cons.
  apply Rplus_le_compat; [apply H; left; reflexivity |].
  apply IH. intros y Hy. apply H. right. exact Hy.
Qed.


Lemma sum_over_scale {X : Type} (xs : list X) (a : R) (f : X -> R) :
  sum_over xs (fun x => a * f x) = a * sum_over xs f.
Proof.
  induction xs as [| x xs IH]; [unfold sum_over; cbn; lra |].
  rewrite !sum_over_cons, IH. lra.
Qed.

Lemma sum_over_zero {X : Type} (xs : list X) :
  sum_over xs (fun _ => 0) = 0.
Proof.
  induction xs as [| x xs IH]; [reflexivity |].
  rewrite sum_over_cons, IH. lra.
Qed.



Lemma dot_comm (a b : list R) : dot a b = dot b a.
Proof.
  revert b. induction a as [| x a IH]; intros [| y b]; cbn; try reflexivity.
  rewrite IH. ring.
Qed.

Lemma dot_vscale_l (s : R) (a t : list R) :
  dot (vscale s a) t = s * dot a t.
Proof.
  revert t. induction a as [| x a IH]; intros [| y t]; cbn; try lra.
  fold (vscale s a). rewrite IH. ring.
Qed.







Lemma dot_cauchy_schwarz (a b : list R) :
  dot a b * dot a b <= dot a a * dot b b.
Proof.
  revert b. induction a as [| x a IH]; intros [| y b]; cbn; try nra.
  specialize (IH b).
  pose proof (dot_self_nonneg a) as HA.
  pose proof (dot_self_nonneg b) as HB.
  set (A := dot a a) in *. set (B := dot b b) in *. set (C := dot a b) in *.
  clearbody A B C. clear a b.
  assert (Hmix : 2 * (x * y * C) <= x * x * B + y * y * A).
  { destruct (Req_dec_T A 0) as [HA0 | HA0].
    - assert (HC : C = 0) by nra. rewrite HC, HA0. nra.
    - assert (0 < A) by lra.
      assert (0 <= A * (x * x * B + y * y * A - 2 * (x * y * C))).
      { replace (A * (x * x * B + y * y * A - 2 * (x * y * C)))
          with ((y * A - x * C) * (y * A - x * C)
                + x * x * (A * B - C * C)) by ring.
        apply Rplus_le_le_0_compat.
        - apply Rle_0_sqr.
        - apply Rmult_le_pos; [apply Rle_0_sqr | lra]. }
      apply (Rmult_le_reg_l A); [assumption |]. lra. }
  lra.
Qed.

Lemma dot_map_div (v : list R) (d : R) :
  d <> 0 ->
  dot (map (fun x => x / d) v) (map (fun x => x / d) v) = dot v v / (d * d).
Proof.
  intros Hd. induction v as [| x v IH]; cbn.
  - unfold Rdiv. ring.
  - rewrite IH. field. exact Hd.
Qed.






(** ** Scatter-add and quadratic forms *)









Lemma dot_repeat_zero_l (n : nat) (x : list R) : dot (repeat 0 n) x = 0.
Proof.
  revert x. induction n as [| n IH]; intros [| z x]; cbn; try reflexivity.
  rewrite IH. lra.
Qed.














(** ** The rheology with the range of a [double] *)

Lemma thresholds_ordered :
  0 < Binary64.underflow_threshold /\
  Binary64.underflow_threshold < 1 /\ 1 < Binary64.overflow_threshold.
Proof.
  unfold Binary64.underflow_threshold, Binary64.overflow_threshold.
  repeat split; lra.
Qed.

Lemma round_in_range (x : R) :
  Binary64.underflow_threshold < Rabs x ->
  Rabs x < Binary64.overflow_threshold ->
  Binary64.round x = Binary64.finite x.
Proof.
  intros Hlo Hhi. unfold Binary64.round.
  destruct (Rle_dec _ _) as [H |]; [lra |].
  destruct (Rle_dec _ _) as [H |]; [lra | reflexivity].
Qed.

Lemma round_small (x : R) :
  Rabs x <= Binary64.underflow_threshold ->
  Binary64.round x = Binary64.finite 0.
Proof.
  intros Hlo. unfold Binary64.round.
  pose proof thresholds_ordered as (_ & H1 & H2).
  destruct (Rle_dec _ _) as [H |]; [lra |].
  destruct (Rle_dec _ _) as [H |]; [reflexivity | lra].
Qed.

Lemma round_large (x : R) :
  Binary64.overflow_threshold <= x ->
  Binary64.round x = Binary64.infinity false.
Proof.
  intros Hhi. unfold Binary64.round.
  pose proof thresholds_ordered as (_ & H1 & H2).
  assert (Hx : Rabs x = x) by (apply Rabs_pos_eq; lra).
  rewrite Hx.
  destruct (Rle_dec _ _) as [H |]; [| lra].
  unfold Rltb. destruct (Rlt_dec x 0); [lra | reflexivity].
Qed.

Lemma round_zero : Binary64.round 0 = Binary64.finite 0.
Proof.
  apply round_small. rewrite Rabs_R0.
  pose proof thresholds_ordered. lra.
Qed.

(** The three outcomes of bringing a number that is not negative into
    range. *)
Lemma round_nonneg_cases (x : R) :
  0 <= x ->
  (x <= Binary64.underflow_threshold /\
   Binary64.round x = Binary64.finite 0) \/
  (Binary64.underflow_threshold < x < Binary64.overflow_threshold /\
   Binary64.round x = Binary64.finite x) \/
  (Binary64.overflow_threshold <= x /\
   Binary64.round x = Binary64.infinity false).
Proof.
  intros Hx. assert (Ha : Rabs x = x) by (apply Rabs_pos_eq; exact Hx).
  destruct (Rle_dec x Binary64.underflow_threshold) as [Hs | Hs].
  - left. split; [exact Hs |]. apply round_small. now rewrite Ha.
  - destruct (Rle_dec Binary64.overflow_threshold x) as [Hl | Hl].
    + right. right. split; [exact Hl |]. now apply round_large.
    + right. left. split; [lra |]. apply round_in_range; rewrite Ha; lra.
Qed.

Lemma round_nonneg (x : R) : 0 <= x -> Binary64.nonneg (Binary64.round x).
Proof.
  intros Hx.
  destruct (round_nonneg_cases x Hx) as [[_ E] | [[_ E] | [_ E]]];
    rewrite E; cbn; try reflexivity; lra.
Qed.

Lemma round_le (x y : R) :
  0 <= x -> x <= y -> Binary64.le (Binary64.round x) (Binary64.round y).
Proof.
  intros Hx Hxy.
  pose proof thresholds_ordered as (H0 & H1 & H2).
  destruct (round_nonneg_cases x Hx) as [[Bx Ex] | [[Bx Ex] | [Bx Ex]]];
    destruct (round_nonneg_cases y (Rle_trans _ _ _ Hx Hxy))
      as [[By Ey] | [[By Ey] | [By Ey]]];
    rewrite Ex, Ey; cbn; try reflexivity; try lra; auto.
Qed.

Lemma le_infinity (a : Binary64.double) :
  Binary64.nonneg a -> Binary64.le a (Binary64.infinity false).
Proof. destruct a as [| [|] | x]; cbn; auto. Qed.

Lemma nonneg_cases (a : Binary64.double) :
  Binary64.nonneg a ->
  a = Binary64.infinity false \/ exists x, a = Binary64.finite x /\ 0 <= x.
Proof.
  destruct a as [| [|] | x]; cbn; intros H; try contradiction;
    try discriminate; [now left | right; now exists x].
Qed.

(** Multiplication by a positive number keeps the order of doubles that
    are not negative. *)
Lemma mul_nonneg_monotone (a b : Binary64.double) (s s' : R) :
  Binary64.nonneg a -> Binary64.le a b -> 0 < s -> s <= s' ->
  Binary64.nonneg (Binary64.mul a (Binary64.finite s)) /\
  Binary64.le (Binary64.mul a (Binary64.finite s))
              (Binary64.mul b (Binary64.finite s')).
Proof.
  intros Ha Hab Hs Hss.
  assert (Hinf : forall r, 0 < r ->
             Binary64.mul (Binary64.infinity false) (Binary64.finite r)
             = Binary64.infinity false).
  { intros r Hr. cbn. destruct (Req_dec_T r 0); [lra |].
    now rewrite Rltb_false by lra. }
  destruct (nonneg_cases a Ha) as [-> | (x & -> & Hx)].
  - destruct b as [| [|] | y]; cbn in Hab; try contradiction;
      try discriminate; try (destruct Hab; discriminate).
    rewrite !Hinf by lra. cbn. auto.
  - assert (Hxs : 0 <= x * s) by (apply Rmult_le_pos; lra).
    split; [apply round_nonneg, Hxs |].
    destruct b as [| [|] | y]; cbn in Hab; try contradiction;
      try discriminate.
    + rewrite Hinf by lra. apply le_infinity. cbn [Binary64.mul].
      apply round_nonneg, Hxs.
    + cbn [Binary64.mul]. apply round_le; [exact Hxs |].
      apply Rmult_le_compat; lra.
Qed.

Lemma Rpower_neg_antitone (x y e : R) :
  0 < x -> x <= y -> e < 0 -> Rpower y e <= Rpower x e.
Proof.
  intros Hx Hxy He. unfold Rpower.
  destruct (Req_dec x y) as [-> | Hne]; [lra |].
  apply Rlt_le, exp_increasing.
  assert (Hln : ln x < ln y) by (apply ln_increasing; lra).
  nra.
Qed.

(** [pow] with a negative exponent reverses the order of doubles that are
    not negative: the pole at 0 is the largest value, 0 at infinity the
    smallest. *)
Lemma pow_neg_antitone (a b : Binary64.double) (e : R) :
  e < 0 -> Binary64.nonneg a -> Binary64.le a b ->
  Binary64.nonneg (Binary64.pow b (Binary64.finite e)) /\
  Binary64.le (Binary64.pow b (Binary64.finite e))
              (Binary64.pow a (Binary64.finite e)).
Proof.
  intros He Ha Hab.
  assert (Hpow : forall x, 0 <= x ->
             (x = 0 /\ Binary64.pow (Binary64.finite x) (Binary64.finite e)
                       = Binary64.infinity false) \/
             (0 < x /\ Binary64.pow (Binary64.finite x) (Binary64.finite e)
                       = Binary64.round (Rpower x e))).
  { intros x Hx. cbn. destruct (Req_dec_T e 0); [lra |].
    destruct (Rlt_dec 0 x); [right; now split |].
    destruct (Req_dec_T x 0); [| lra].
    destruct (Rlt_dec e 0); [left; now split | lra]. }
  assert (Hinf : Binary64.pow (Binary64.infinity false) (Binary64.finite e)
                 = Binary64.finite 0).
  { cbn. destruct (Req_dec_T e 0); [lra |].
    destruct (Rlt_dec e 0); [reflexivity | lra]. }
  assert (Hpos : forall x, 0 < x -> 0 <= Rpower x e).
  { intros x _. unfold Rpower. apply Rlt_le, exp_pos. }
  destruct (nonneg_cases a Ha) as [-> | (x & -> & Hx)].
  - destruct b as [| [|] | y]; cbn in Hab; try contradiction;
      try discriminate; try (destruct Hab; discriminate).
    rewrite Hinf. cbn. lra.
  - destruct b as [| [|] | y]; cbn in Hab; try contradiction;
      try discriminate.
    + rewrite Hinf. split; [cbn; lra |].
      destruct (Hpow x Hx) as [[_ ->] | [Hx0 ->]]; [cbn; reflexivity |].
      apply round_nonneg, Hpos, Hx0.
    + destruct (Hpow y (Rle_trans _ _ _ Hx Hab)) as [[Hy0 Ey] | [Hy0 Ey]];
        rewrite Ey.
      * assert (x = 0) by lra. subst x.
        destruct (Hpow 0 (Rle_refl 0)) as [[_ ->] | [Hx0 _]]; [| lra].
        cbn. auto.
      * split; [apply round_nonneg, Hpos, Hy0 |].
        destruct (Hpow x Hx) as [[_ ->] | [Hx0 ->]].
        -- apply le_infinity, round_nonneg, Hpos, Hy0.
        -- apply round_le; [apply Hpos, Hy0 |].
           apply Rpower_neg_antitone; assumption.
Qed.

(** Division by 2 keeps the order. *)
Lemma halve_monotone (a b : Binary64.double) :
  Binary64.nonneg a -> Binary64.le a b ->
  Binary64.nonneg (Binary64.div a (Binary64.finite 2)) /\
  Binary64.le (Binary64.div a (Binary64.finite 2))
              (Binary64.div b (Binary64.finite 2)).
Proof.
  intros Ha Hab.
  assert (Hinf : Binary64.div (Binary64.infinity false) (Binary64.finite 2)
                 = Binary64.infinity false).
  { cbn. now rewrite Rltb_false by lra. }
  assert (Hfin : forall x, Binary64.div (Binary64.finite x) (Binary64.finite 2)
                           = Binary64.round (x / 2)).
  { intros x. cbn. destruct (Req_dec_T 2 0); [lra | reflexivity]. }
  destruct (nonneg_cases a Ha) as [-> | (x & -> & Hx)].
  - destruct b as [| [|] | y]; cbn in Hab; try contradiction;
      try discriminate; try (destruct Hab; discriminate).
    rewrite Hinf. cbn. auto.
  - rewrite Hfin. split; [apply round_nonneg; lra |].
    destruct b as [| [|] | y]; cbn in Hab; try contradiction;
      try discriminate.
    + rewrite Hinf. apply le_infinity, round_nonneg. lra.
    + rewrite Hfin. apply round_le; lra.
Qed.

Lemma round_nonpos_cases (x : R) :
  x <= 0 ->
  Binary64.round x = Binary64.infinity true \/
  Binary64.round x = Binary64.finite 0 \/
  (x < 0 /\ Binary64.round x = Binary64.finite x).
Proof.
  intros Hx. unfold Binary64.round.
  pose proof thresholds_ordered as (H0 & H1 & H2).
  destruct (Rle_dec _ _) as [Hl |].
  - left. rewrite Rltb_true; [reflexivity |].
    destruct (Req_dec x 0) as [-> | Hne]; [rewrite Rabs_R0 in Hl; lra | lra].
  - destruct (Rle_dec _ _) as [Hs | Hs]; [now right; left |].
    right. right. split; [| reflexivity].
    destruct (Req_dec x 0) as [-> | Hne]; [rewrite Rabs_R0 in Hs; lra | lra].
Qed.

Lemma exponent_value :
  Binary64.div (Binary64.finite (-1)) (Binary64.finite 3)
  = Binary64.finite (-1 / 3).
Proof.
  cbn. destruct (Req_dec_T 3 0); [lra |].
  apply round_in_range;
    replace (Rabs (-1 / 3)) with (1 / 3)
      by (rewrite Rabs_left; lra);
    unfold Binary64.underflow_threshold, Binary64.overflow_threshold; lra.
Qed.

(** [std::exp] of a double that is not positive lies between 0 and 1. *)
Lemma exp_nonpos_range (q : Binary64.double) :
  q = Binary64.infinity true \/ (exists z, q = Binary64.finite z /\ z <= 0) ->
  exists e, Binary64.exp q = Binary64.finite e /\ 0 <= e <= 1 /\
            (forall z, q = Binary64.finite z -> e <= exp z).
Proof.
  pose proof thresholds_ordered as (H0 & H1 & H2).
  intros [-> | (z & -> & Hz)].
  - exists 0. split; [reflexivity |]. split; [lra |]. discriminate.
  - assert (He : 0 < exp z <= 1).
    { split; [apply exp_pos |].
      destruct (Req_dec z 0) as [-> | Hne]; [rewrite exp_0; lra |].
      rewrite <- exp_0. apply Rlt_le, exp_increasing. lra. }
    cbn [Binary64.exp].
    destruct (round_nonneg_cases (exp z)) as [[_ E] | [[_ E] | [B _]]];
      [lra | | | lra]; rewrite E.
    + exists 0. split; [reflexivity |]. split; [lra |].
      intros z' [= <-]. lra.
    + exists (exp z). split; [reflexivity |]. split; [lra |].
      intros z' [= <-]. lra.
Qed.

Lemma Rpower_neg_third_cube (x : R) :
  0 < x ->
  Rpower x (-1 / 3) * Rpower x (-1 / 3) * Rpower x (-1 / 3) = / x.
Proof.
  intros Hx. unfold Rpower. rewrite <- !exp_plus.
  replace (-1 / 3 * ln x + -1 / 3 * ln x + -1 / 3 * ln x) with (- ln x)
    by lra.
  rewrite exp_Ropp, exp_ln by exact Hx. reflexivity.
Qed.

(** For a base in the range of a [double], the power [-1/3] and its half
    are in range as well. *)
Lemma Rpower_neg_third_range (x : R) :
  Binary64.underflow_threshold < x < Binary64.overflow_threshold ->
  0 < Rpower x (-1 / 3) /\
  Binary64.underflow_threshold < Rpower x (-1 / 3) / 2 /\
  Rpower x (-1 / 3) < Binary64.overflow_threshold.
Proof.
  intros [Hlo Hhi]. pose proof thresholds_ordered as (H0 & H1 & H2).
  assert (Hx : 0 < x) by lra.
  pose proof (Rpower_neg_third_cube x Hx) as Hcube.
  set (p := Rpower x (-1 / 3)) in *.
  assert (Hp : 0 < p) by (unfold p, Rpower; apply exp_pos).
  assert (Hinv_lo : / Binary64.overflow_threshold < / x)
    by (apply Rinv_lt_contravar; [apply Rmult_lt_0_compat; lra | exact Hhi]).
  assert (Hinv_hi : / x < / Binary64.underflow_threshold)
    by (apply Rinv_lt_contravar; [apply Rmult_lt_0_compat; lra | exact Hlo]).
  split; [exact Hp |]. split.
  - destruct (Rlt_dec Binary64.underflow_threshold (p / 2)) as [H | H];
      [exact H | exfalso].
    assert (Hp2 : p <= 2 * Binary64.underflow_threshold) by lra.
    assert (Hpp : p * p <= 2 * Binary64.underflow_threshold
                           * (2 * Binary64.underflow_threshold))
      by (apply Rmult_le_compat; lra).
    assert (Hppp : p * p * p <= 2 * Binary64.underflow_threshold
                                * (2 * Binary64.underflow_threshold)
                                * (2 * Binary64.underflow_threshold)).
    { apply Rmult_le_compat; try lra.
      apply Rmult_le_pos; lra. }
    rewrite Hcube in Hppp.
    unfold Binary64.underflow_threshold, Binary64.overflow_threshold in *.
    lra.
  - destruct (Rlt_dec p Binary64.overflow_threshold) as [H | H];
      [exact H | exfalso].
    assert (Hp2 : Binary64.overflow_threshold <= p) by lra.
    assert (Hpp : Binary64.overflow_threshold * Binary64.overflow_threshold
                  <= p * p)
      by (apply Rmult_le_compat; lra).
    assert (Hppp : Binary64.overflow_threshold * Binary64.overflow_threshold
                   * Binary64.overflow_threshold <= p * p * p).
    { apply Rmult_le_compat; try lra.
      apply Rmult_le_pos; lra. }
    rewrite Hcube in Hppp.
    unfold Binary64.underflow_threshold, Binary64.overflow_threshold in *.
    rewrite Rinv_inv in Hinv_hi. lra.
Qed.

Section RangedRheology.

Variable k : PhysicalConstants.

(** The constants of [constants.hpp] are positive, and a year lasts between
    a second and [1e10] seconds. *)
Hypothesis year_in_sec_range : 1 <= year_in_sec k <= 1.0e10.
Hypothesis ideal_gas_positive : 0 < ideal_gas k.

Lemma A0_cold_value :
  Binary64.A0_cold k
  = Binary64.finite (3.985e-13 * year_in_sec k * 1.0e18).
Proof.
  unfold Binary64.A0_cold. cbn [Binary64.mul].
  rewrite round_in_range; cbn [Binary64.mul];
    [apply round_in_range | |];
    rewrite Rabs_pos_eq by lra;
    unfold Binary64.underflow_threshold, Binary64.overflow_threshold; lra.
Qed.

Lemma A0_warm_value :
  Binary64.A0_warm k
  = Binary64.finite (1.916e3 * year_in_sec k * 1.0e18).
Proof.
  unfold Binary64.A0_warm. cbn [Binary64.mul].
  rewrite round_in_range; cbn [Binary64.mul];
    [apply round_in_range | |];
    rewrite Rabs_pos_eq by lra;
    unfold Binary64.underflow_threshold, Binary64.overflow_threshold; lra.
Qed.

(** At a positive temperature the rate factor is a double between 0 and
    the prefactor of its branch: never a NaN or an infinity, but possibly
    0, when the exponential or the product underflows. *)
Lemma rate_factor_range (t : R) :
  0 < t ->
  exists A, Binary64.rate_factor k (Binary64.finite t) = Binary64.finite A /\
            0 <= A <= 1.916e3 * year_in_sec k * 1.0e18.
Proof.
  intros Ht. pose proof thresholds_ordered as (H0 & H1 & H2).
  unfold Binary64.rate_factor. cbv zeta.
  set (cold := Binary64.ltb _ _).
  assert (Hq : exists Q a0,
             0 < Q /\ 0 < a0 <= 1.916e3 * year_in_sec k * 1.0e18 /\
             (if cold then Binary64.Q_cold else Binary64.Q_warm)
             = Binary64.finite Q /\
             (if cold then Binary64.A0_cold k else Binary64.A0_warm k)
             = Binary64.finite a0).
  { destruct cold.
    - exists 60, (3.985e-13 * year_in_sec k * 1.0e18).
      split; [lra |]. split; [lra |]. split; [reflexivity | apply A0_cold_value].
    - exists 139, (1.916e3 * year_in_sec k * 1.0e18).
      split; [lra |]. split; [lra |]. split; [reflexivity | apply A0_warm_value]. }
  destruct Hq as (Q & a0 & HQ & Ha0 & -> & ->).
  cbn [Binary64.opp Binary64.mul].
  assert (Hgt : 0 < ideal_gas k * t) by (apply Rmult_lt_0_compat; assumption).
  assert (Hdiv :
            Binary64.div (Binary64.finite (- Q))
              (Binary64.round (ideal_gas k * t)) = Binary64.infinity true \/
            exists z, Binary64.div (Binary64.finite (- Q))
                        (Binary64.round (ideal_gas k * t))
                      = Binary64.finite z /\ z <= 0).
  { destruct (round_nonneg_cases (ideal_gas k * t)) as [[_ E] | [[_ E] | [_ E]]];
      [lra | | |]; rewrite E; cbn [Binary64.div].
    - destruct (Req_dec_T 0 0) as [_ | N]; [| now elim N].
      destruct (Req_dec_T (- Q) 0); [lra |].
      left. now rewrite Rltb_true by lra.
    - destruct (Req_dec_T (ideal_gas k * t) 0); [lra |].
      assert (Hneg : - Q / (ideal_gas k * t) <= 0).
      { unfold Rdiv. apply Rlt_le.
        assert (0 < / (ideal_gas k * t)) by (apply Rinv_0_lt_compat; lra).
        nra. }
      destruct (round_nonpos_cases _ Hneg) as [-> | [-> | [_ ->]]].
      + now left.
      + right. exists 0. split; [reflexivity | lra].
      + right. eexists. split; [reflexivity | exact Hneg].
    - right. exists 0. split; [reflexivity | lra]. }
  destruct (exp_nonpos_range _ Hdiv) as (e & -> & He & _).
  cbn [Binary64.mul].
  assert (Hprod : 0 <= a0 * e <= a0) by nra.
  destruct (round_nonneg_cases (a0 * e)) as [[_ E] | [[_ E] | [B _]]];
    [lra | | |]; try rewrite E.
  - exists 0. split; [reflexivity | lra].
  - exists (a0 * e). split; [reflexivity | lra].
  - exfalso. unfold Binary64.overflow_threshold in B. lra.
Qed.

(** C6, as amended.  At a fixed temperature [T > 0] the viscosity does not
    increase with the strain rate: for [0 < s1 < s2],
    [viscosity(T, s1) >= viscosity(T, s2)], and neither value is a NaN.  The
    two can be equal: both are [+infinity] where [A s s] underflows to zero,
    both are 0 where it overflows. *)
Theorem viscosity_nonincreasing (t s1 s2 : R) :
  0 < t -> 0 < s1 -> s1 < s2 ->
  Binary64.le (Binary64.viscosity k (Binary64.finite t) (Binary64.finite s2))
              (Binary64.viscosity k (Binary64.finite t) (Binary64.finite s1)).
Proof.
  intros Ht H1 H12.
  destruct (rate_factor_range t Ht) as (A & HA & HApos & _).
  unfold Binary64.viscosity. cbv zeta. rewrite HA, exponent_value.
  assert (Ha : Binary64.nonneg (Binary64.finite A)) by exact HApos.
  assert (Haa : Binary64.le (Binary64.finite A) (Binary64.finite A))
    by (cbn; lra).
  destruct (mul_nonneg_monotone _ _ s1 s2 Ha Haa H1 (Rlt_le _ _ H12))
    as [Hn1 Hle1].
  destruct (mul_nonneg_monotone _ _ s1 s2 Hn1 Hle1 H1 (Rlt_le _ _ H12))
    as [Hn2 Hle2].
  assert (He : -1 / 3 < 0) by lra.
  destruct (pow_neg_antitone _ _ (-1 / 3) He Hn2 Hle2) as [Hn3 Hle3].
  apply (halve_monotone _ _ Hn3 Hle3).
Qed.

(** [viscosity] has no guard: a base [A s s] that is zero reaches the
    pole of [std::pow], and the infinity goes through. *)
Lemma viscosity_at_pole (T s : Binary64.double) :
  Binary64.mul (Binary64.mul (Binary64.rate_factor k T) s) s
  = Binary64.finite 0 ->
  Binary64.viscosity k T s = Binary64.infinity false.
Proof.
  intros Hbase. unfold Binary64.viscosity. cbv zeta.
  rewrite Hbase, exponent_value. cbn.
  destruct (Req_dec_T (-1 / 3) 0); [lra |].
  destruct (Rlt_dec 0 0); [lra |].
  destruct (Req_dec_T 0 0) as [_ | N]; [| now elim N].
  destruct (Rlt_dec (-1 / 3) 0); [| lra].
  cbn. now rewrite Rltb_false by lra.
Qed.

(** Away from the pole, in range: the value of [viscosity]. *)
Lemma viscosity_in_range (T s : Binary64.double) (x : R) :
  Binary64.mul (Binary64.mul (Binary64.rate_factor k T) s) s
  = Binary64.finite x ->
  Binary64.underflow_threshold < x < Binary64.overflow_threshold ->
  Binary64.viscosity k T s = Binary64.finite (Rpower x (-1 / 3) / 2) /\
  0 < Rpower x (-1 / 3) / 2.
Proof.
  intros Hbase Hx. pose proof thresholds_ordered as (H0 & H1 & H2).
  destruct (Rpower_neg_third_range x Hx) as (Hp & Hlo & Hhi).
  unfold Binary64.viscosity. cbv zeta.
  rewrite Hbase, exponent_value. cbn [Binary64.pow].
  destruct (Req_dec_T (-1 / 3) 0); [lra |].
  destruct (Rlt_dec 0 x); [| lra].
  rewrite round_in_range by (rewrite Rabs_pos_eq; lra).
  cbn [Binary64.div]. destruct (Req_dec_T 2 0); [lra |].
  rewrite round_in_range by (rewrite Rabs_pos_eq; lra).
  split; [reflexivity | lra].
Qed.

Lemma zero_products :
  Binary64.mul (Binary64.finite 0) (Binary64.finite 0) = Binary64.finite 0 /\
  Binary64.add (Binary64.finite 0) (Binary64.finite 0) = Binary64.finite 0 /\
  Binary64.mul (Binary64.finite 2) (Binary64.finite 0) = Binary64.finite 0 /\
  Binary64.mul (Binary64.finite 0) (Binary64.finite 1) = Binary64.finite 0 /\
  Binary64.div (Binary64.finite 0) (Binary64.finite 2) = Binary64.finite 0 /\
  Binary64.sqrt (Binary64.finite 0) = Binary64.finite 0.
Proof.
  cbn. rewrite !Rmult_0_l, Rmult_0_r, Rplus_0_l, round_zero.
  destruct (Req_dec_T 2 0); [lra |].
  destruct (Rlt_dec 0 0); [lra |].
  unfold Rdiv. rewrite Rmult_0_l, sqrt_0, round_zero. repeat split.
Qed.

Lemma add_nan_r (a : Binary64.double) : Binary64.add a Binary64.NaN = Binary64.NaN.
Proof. now destruct a. Qed.

Lemma mul_nan_r (a : Binary64.double) : Binary64.mul a Binary64.NaN = Binary64.NaN.
Proof. now destruct a. Qed.

(** At the zero strain rate [linearized] divides zero by zero, and the
    NaN spreads to every entry: whatever [T] and [h]. *)
Lemma linearized_at_zero (T h : Binary64.double) :
  Binary64.SSA.linearized k T h
    (Binary64.mkT2 (Binary64.finite 0) (Binary64.finite 0) (Binary64.finite 0))
  = Binary64.nan_tensor.
Proof.
  destruct zero_products as (E1 & E2 & E3 & E4 & E5 & E6).
  unfold Binary64.SSA.linearized. cbv zeta.
  unfold Binary64.first_invariant, Binary64.scalar_product,
    Binary64.div2, Binary64.add2, Binary64.scale2, Binary64.SSA.I,
    Binary64.unit_symmetric_tensor.
  cbn [Binary64.c00 Binary64.c11 Binary64.c01].
  rewrite ?E1, ?E2, ?E3, ?E4, ?E1, ?E2, ?E5, ?E6.
  set (nu := Binary64.mul h _).
  assert (Enan : Binary64.div (Binary64.finite 0) (Binary64.finite 0)
                 = Binary64.NaN).
  { cbn. destruct (Req_dec_T 0 0) as [_ | N]; [reflexivity | now elim N]. }
  rewrite Enan.
  unfold Binary64.outer_product, Binary64.div4, Binary64.div2,
    Binary64.sub4, Binary64.sub2, Binary64.scale4, Binary64.scale2,
    Binary64.sub.
  cbn [Binary64.c00 Binary64.c11 Binary64.c01 Binary64.row00 Binary64.row11
       Binary64.row01 Binary64.mul Binary64.div Binary64.opp].
  rewrite !add_nan_r, !mul_nan_r. reflexivity.
Qed.

Lemma round_not_nan (x : R) : Binary64.is_nan (Binary64.round x) = false.
Proof.
  unfold Binary64.round.
  destruct (Rle_dec _ _); [reflexivity |]. now destruct (Rle_dec _ _).
Qed.

Lemma add_finite_not_nan (a : R) (b : Binary64.double) :
  Binary64.is_nan b = false ->
  Binary64.is_nan (Binary64.add (Binary64.finite a) b) = false.
Proof.
  destruct b as [| n | y]; cbn; intros H;
    [discriminate | reflexivity | apply round_not_nan].
Qed.

Lemma div_not_nan (d : Binary64.double) (e : R) :
  Binary64.is_nan d = false -> e <> 0 ->
  Binary64.is_nan (Binary64.div d (Binary64.finite e)) = false.
Proof.
  destruct d as [| n | x]; cbn; intros H He; [discriminate | reflexivity |].
  destruct (Req_dec_T e 0); [contradiction | apply round_not_nan].
Qed.

Lemma nonneg_add (a b : Binary64.double) :
  Binary64.nonneg a -> Binary64.nonneg b ->
  Binary64.nonneg (Binary64.add a b).
Proof.
  intros Ha Hb.
  destruct (nonneg_cases a Ha) as [-> | (x & -> & Hx)];
    destruct (nonneg_cases b Hb) as [-> | (y & -> & Hy)]; cbn; try reflexivity.
  apply round_nonneg. lra.
Qed.

Lemma square_nonneg (x : R) :
  Binary64.nonneg (Binary64.mul (Binary64.finite x) (Binary64.finite x)).
Proof. cbn [Binary64.mul]. apply round_nonneg, Rle_0_sqr. Qed.

Lemma double_nonneg (a : Binary64.double) :
  Binary64.nonneg a -> Binary64.nonneg (Binary64.mul (Binary64.finite 2) a).
Proof.
  intros Ha. destruct (nonneg_cases a Ha) as [-> | (x & -> & Hx)].
  - cbn. destruct (Req_dec_T 2 0); [lra |]. now rewrite Rltb_false by lra.
  - cbn [Binary64.mul]. apply round_nonneg. lra.
Qed.

(** Where the effective strain rate of a strain rate with finite components
    is a finite double other than zero, the trace was finite, and the
    quotient [(eps + tr I) / eps_e] that [linearized] forms has no NaN
    component. *)
Lemma flow_direction_not_nan (a b c e : R) :
  Binary64.SSA.effective_strain_rate
    (Binary64.mkT2 (Binary64.finite a) (Binary64.finite b) (Binary64.finite c))
  = Binary64.finite e ->
  e <> 0 ->
  Binary64.has_nan
    (Binary64.div2
       (Binary64.add2
          (Binary64.mkT2 (Binary64.finite a) (Binary64.finite b)
             (Binary64.finite c))
          (Binary64.scale2
             (Binary64.first_invariant
                (Binary64.mkT2 (Binary64.finite a) (Binary64.finite b)
                   (Binary64.finite c)))
             Binary64.SSA.I))
       (Binary64.finite e)) = false.
Proof.
  intros He Hne.
  unfold Binary64.SSA.effective_strain_rate in He. cbv zeta in He.
  unfold Binary64.first_invariant, Binary64.scalar_product in *.
  cbn [Binary64.c00 Binary64.c11 Binary64.c01] in *.
  assert (Hsp : Binary64.nonneg
                  (Binary64.add
                     (Binary64.add
                        (Binary64.mul (Binary64.finite a) (Binary64.finite a))
                        (Binary64.mul (Binary64.finite b) (Binary64.finite b)))
                     (Binary64.mul (Binary64.finite 2)
                        (Binary64.mul (Binary64.finite c) (Binary64.finite c))))).
  { apply nonneg_add; [apply nonneg_add; apply square_nonneg |].
    apply double_nonneg, square_nonneg. }
  match type of Hsp with
  | Binary64.nonneg ?t => set (sp := t) in *
  end.
  destruct (Binary64.add (Binary64.finite a) (Binary64.finite b))
    as [| n | r] eqn:Etr.
  - pose proof (round_not_nan (a + b)) as N. cbn in Etr. rewrite Etr in N.
    discriminate.
  - exfalso. cbn [Binary64.mul] in He.
    replace (xorb n n) with false in He by now destruct n.
    destruct (nonneg_cases _ Hsp) as [E | (x & E & _)]; rewrite E in He;
      cbn in He; rewrite Rltb_false in He by lra; discriminate.
  - unfold Binary64.has_nan, Binary64.div2, Binary64.add2, Binary64.scale2,
      Binary64.SSA.I, Binary64.unit_symmetric_tensor.
    cbn [Binary64.c00 Binary64.c11 Binary64.c01 Binary64.mul].
    rewrite !div_not_nan;
      try reflexivity; try exact Hne;
      apply add_finite_not_nan, round_not_nan.
Qed.

(** C7, as amended.  At a temperature [T > 0]:
    - at a strain rate [s > 0] for which the base [A(T) s s] that reaches
      [std::pow] is a finite double other than zero, the base is positive
      and [viscosity(T, s)] is the finite positive number
      [(A s s)^(-1/3) / 2]: no division by zero takes place;
    - [s > 0] and [T > 0] alone do not ensure that: where the base
      underflows to zero, [viscosity(T, s)] is [+infinity];
    - [viscosity(T, 0)] is [+infinity], the value of [std::pow] at its
      pole divided by 2;
    - the division of [linearized] by an effective strain rate that is a
      finite double other than zero leaves no NaN;
    - at the zero strain rate, whose effective strain rate is 0,
      [linearized] returns NaN in every entry.
    Neither function tests its argument: the infinity and the NaN are what
    they return. *)
Theorem viscosity_is_unguarded (t : R) :
  0 < t ->
  (forall s x,
     0 < s ->
     Binary64.mul
       (Binary64.mul (Binary64.rate_factor k (Binary64.finite t))
          (Binary64.finite s))
       (Binary64.finite s) = Binary64.finite x ->
     x <> 0 ->
     0 < x /\
     Binary64.viscosity k (Binary64.finite t) (Binary64.finite s)
     = Binary64.finite (Rpower x (-1 / 3) / 2) /\
     0 < Rpower x (-1 / 3) / 2) /\
  (forall s,
     0 < s ->
     Binary64.mul
       (Binary64.mul (Binary64.rate_factor k (Binary64.finite t))
          (Binary64.finite s))
       (Binary64.finite s) = Binary64.finite 0 ->
     Binary64.viscosity k (Binary64.finite t) (Binary64.finite s)
     = Binary64.infinity false) /\
  Binary64.viscosity k (Binary64.finite t) (Binary64.finite 0)
  = Binary64.infinity false /\
  (forall a b c e,
     Binary64.SSA.effective_strain_rate
       (Binary64.mkT2 (Binary64.finite a) (Binary64.finite b)
          (Binary64.finite c)) = Binary64.finite e ->
     e <> 0 ->
     Binary64.has_nan
       (Binary64.div2
          (Binary64.add2
             (Binary64.mkT2 (Binary64.finite a) (Binary64.finite b)
                (Binary64.finite c))
             (Binary64.scale2
                (Binary64.first_invariant
                   (Binary64.mkT2 (Binary64.finite a) (Binary64.finite b)
                      (Binary64.finite c)))
                Binary64.SSA.I))
          (Binary64.finite e)) = false) /\
  (forall h,
     Binary64.SSA.effective_strain_rate
       (Binary64.mkT2 (Binary64.finite 0) (Binary64.finite 0)
          (Binary64.finite 0)) = Binary64.finite 0 /\
     Binary64.SSA.linearized k (Binary64.finite t) h
       (Binary64.mkT2 (Binary64.finite 0) (Binary64.finite 0)
          (Binary64.finite 0))
     = Binary64.nan_tensor).
Proof.
  intros Ht. pose proof thresholds_ordered as (H0 & H1 & H2).
  destruct (rate_factor_range t Ht) as (A & HA & HApos & _).
  split; [| split; [| split; [| split]]].
  - intros s x Hs Hbase Hx.
    assert (Hrange : Binary64.underflow_threshold < x
                     < Binary64.overflow_threshold).
    { rewrite HA in Hbase. cbn [Binary64.mul] in Hbase.
      assert (HAs : 0 <= A * s) by (apply Rmult_le_pos; lra).
      destruct (round_nonneg_cases _ HAs) as [[_ E] | [[B E] | [_ E]]];
        rewrite E in Hbase; cbn [Binary64.mul] in Hbase.
      - rewrite Rmult_0_l, round_zero in Hbase. injection Hbase as <-.
        now elim Hx.
      - assert (HAss : 0 <= A * s * s) by (apply Rmult_le_pos; lra).
        destruct (round_nonneg_cases _ HAss) as [[_ E'] | [[B' E'] | [_ E']]];
          rewrite E' in Hbase; try discriminate.
        + injection Hbase as <-. now elim Hx.
        + injection Hbase as <-. exact B'.
      - destruct (Req_dec_T s 0); discriminate. }
    split; [lra |]. apply (viscosity_in_range _ _ x Hbase Hrange).
  - intros s _ Hbase. apply viscosity_at_pole, Hbase.
  - apply viscosity_at_pole. rewrite HA. cbn [Binary64.mul].
    rewrite Rmult_0_r, round_zero. cbn [Binary64.mul].
    now rewrite Rmult_0_r, round_zero.
  - intros a b c e. apply flow_direction_not_nan.
  - intros h. split; [| apply linearized_at_zero].
    destruct zero_products as (E1 & E2 & E3 & E4 & E5 & E6).
    unfold Binary64.SSA.effective_strain_rate, Binary64.first_invariant,
      Binary64.scalar_product. cbv zeta.
    cbn [Binary64.c00 Binary64.c11 Binary64.c01].
    now rewrite ?E1, ?E2, ?E3, ?E1, ?E2, ?E5, ?E6.
Qed.

End RangedRheology.

(** *** Examples at the ends of the range *)

Lemma example_constants_in_range :
  1 <= year_in_sec example_constants <= 1.0e10 /\
  0 < ideal_gas example_constants.
Proof. cbn. lra. Qed.

Lemma exp_nat_bounds (n : nat) : 2 ^ n <= exp (INR n) <= 3 ^ n.
Proof.
  assert (H1 : 2 <= exp 1 <= 3).
  { split; [| apply exp_le_3].
    pose proof (exp_ineq1 1). lra. }
  induction n as [| n IH].
  - cbn. rewrite exp_0. lra.
  - rewrite S_INR, exp_plus. cbn [Rpow_def.pow].
    assert (0 < 2 ^ n) by (apply pow_lt; lra).
    assert (0 < exp (INR n)) by apply exp_pos.
    split.
    + rewrite (Rmult_comm 2). apply Rmult_le_compat; lra.
    + rewrite (Rmult_comm 3). apply Rmult_le_compat; lra.
Qed.

Lemma exp_minus_28 : / 3 ^ 28 <= exp (- 28).
Proof.
  assert (E : INR 28 = 28) by (rewrite INR_IZR_INZ; reflexivity).
  replace (- 28) with (- INR 28) by (rewrite E; lra).
  rewrite exp_Ropp.
  apply Rinv_le_contravar; [apply exp_pos | apply exp_nat_bounds].
Qed.

Lemma exp_minus_1075 : exp (- 1075) <= Binary64.underflow_threshold.
Proof.
  assert (E : INR 1075 = 1075) by (rewrite INR_IZR_INZ; reflexivity).
  replace (- 1075) with (- INR 1075) by (rewrite E; lra).
  rewrite exp_Ropp.
  unfold Binary64.underflow_threshold.
  match goal with
  | |- _ <= / IZR ?z =>
      change (IZR z) with (IZR (2 ^ Z.of_nat 1075)); rewrite <- pow_IZR
  end.
  apply Rinv_le_contravar; [apply pow_lt; lra | apply exp_nat_bounds].
Qed.

(** At 260 K the rate factor is an ordinary number. *)
Lemma example_rate_factor_260 :
  exists A,
    Binary64.rate_factor example_constants (Binary64.finite 260)
    = Binary64.finite A /\ 1 / 2 <= A <= 1.3e13.
Proof.
  pose proof thresholds_ordered as (H0 & H1 & H2).
  destruct example_constants_in_range as [Hy Hg].
  unfold Binary64.rate_factor. cbv zeta.
  assert (Hcold : Binary64.ltb (Binary64.finite 260)
                    Binary64.transition_temperature = true)
    by (cbn; apply Rltb_true; lra).
  rewrite Hcold, (A0_cold_value _ Hy).
  cbn [Binary64.Q_cold Binary64.opp Binary64.mul example_constants
       year_in_sec ideal_gas].
  rewrite (round_in_range (8.3144621e-3 * 260))
    by (rewrite Rabs_pos_eq by lra;
        unfold Binary64.underflow_threshold, Binary64.overflow_threshold; lra).
  cbn [Binary64.div]. destruct (Req_dec_T _ 0) as [E | _]; [lra |].
  assert (Hz : - 28 <= - (60) / (8.3144621e-3 * 260) <= - 27) by lra.
  rewrite (round_in_range (- (60) / (8.3144621e-3 * 260)))
    by (rewrite Rabs_left by lra;
        unfold Binary64.underflow_threshold, Binary64.overflow_threshold; lra).
  cbn [Binary64.exp].
  set (z := - (60) / (8.3144621e-3 * 260)) in *.
  assert (He : / 3 ^ 28 <= exp z <= 1).
  { split.
    - eapply Rle_trans; [apply exp_minus_28 |].
      destruct (Req_dec (- 28) z) as [<- | Hne]; [lra |].
      apply Rlt_le, exp_increasing. lra.
    - rewrite <- exp_0. apply Rlt_le, exp_increasing. lra. }
  assert (H3 : / 3 ^ 28 = / 22876792454961) by (f_equal; lra).
  rewrite H3 in He.
  rewrite (round_in_range (exp z))
    by (rewrite Rabs_pos_eq by lra;
        unfold Binary64.underflow_threshold, Binary64.overflow_threshold; lra).
  cbn [Binary64.mul].
  rewrite round_in_range
    by (rewrite Rabs_pos_eq by nra;
        unfold Binary64.underflow_threshold, Binary64.overflow_threshold; nra).
  eexists. split; [reflexivity | nra].
Qed.

(** At 5 K the exponential underflows: the rate factor is 0. *)
Lemma example_rate_factor_5 :
  Binary64.rate_factor example_constants (Binary64.finite 5)
  = Binary64.finite 0.
Proof.
  pose proof thresholds_ordered as (H0 & H1 & H2).
  destruct example_constants_in_range as [Hy Hg].
  unfold Binary64.rate_factor. cbv zeta.
  assert (Hcold : Binary64.ltb (Binary64.finite 5)
                    Binary64.transition_temperature = true)
    by (cbn; apply Rltb_true; lra).
  rewrite Hcold, (A0_cold_value _ Hy).
  cbn [Binary64.Q_cold Binary64.opp Binary64.mul example_constants
       year_in_sec ideal_gas].
  rewrite (round_in_range (8.3144621e-3 * 5))
    by (rewrite Rabs_pos_eq by lra;
        unfold Binary64.underflow_threshold, Binary64.overflow_threshold; lra).
  cbn [Binary64.div]. destruct (Req_dec_T _ 0) as [E | _]; [lra |].
  assert (Hz : - 1500 <= - (60) / (8.3144621e-3 * 5) <= - 1075) by lra.
  rewrite (round_in_range (- (60) / (8.3144621e-3 * 5)))
    by (rewrite Rabs_left by lra;
        unfold Binary64.underflow_threshold, Binary64.overflow_threshold; lra).
  cbn [Binary64.exp].
  set (z := - (60) / (8.3144621e-3 * 5)) in *.
  assert (He : 0 < exp z <= Binary64.underflow_threshold).
  { split; [apply exp_pos |].
    eapply Rle_trans; [| apply exp_minus_1075].
    destruct (Req_dec z (- 1075)) as [-> | Hne]; [lra |].
    apply Rlt_le, exp_increasing. lra. }
  rewrite (round_small (exp z)) by (rewrite Rabs_pos_eq; lra).
  cbn [Binary64.mul]. rewrite Rmult_0_r. apply round_zero.
Qed.

(** A base [A s s] that overflows: [std::pow] returns 0. *)
Lemma viscosity_at_overflow (k : PhysicalConstants) (T s : Binary64.double) :
  Binary64.mul (Binary64.mul (Binary64.rate_factor k T) s) s
  = Binary64.infinity false ->
  Binary64.viscosity k T s = Binary64.finite 0.
Proof.
  intros Hbase. unfold Binary64.viscosity. cbv zeta.
  rewrite Hbase, exponent_value. cbn.
  destruct (Req_dec_T (-1 / 3) 0); [lra |].
  destruct (Rlt_dec (-1 / 3) 0); [| lra].
  cbn. destruct (Req_dec_T 2 0); [lra |].
  unfold Rdiv. rewrite Rmult_0_l. apply round_zero.
Qed.

(** At 260 K a strain rate of [1e200] or more makes the base overflow, and
    one of [2e-170] or less makes it underflow. *)
Lemma example_base_overflows (s : R) :
  1.0e200 <= s <= 1.0e250 ->
  Binary64.mul
    (Binary64.mul (Binary64.rate_factor example_constants (Binary64.finite 260))
       (Binary64.finite s))
    (Binary64.finite s) = Binary64.infinity false.
Proof.
  intros Hs. destruct example_rate_factor_260 as (A & -> & HA).
  cbn [Binary64.mul].
  assert (HAs : 1.0e199 <= A * s <= 1.0e264) by nra.
  rewrite round_in_range
    by (rewrite Rabs_pos_eq by lra;
        unfold Binary64.underflow_threshold, Binary64.overflow_threshold; lra).
  cbn [Binary64.mul]. apply round_large.
  assert (1.0e399 <= A * s * s) by nra.
  unfold Binary64.overflow_threshold. lra.
Qed.

Lemma example_base_underflows (s : R) :
  0 < s <= 2.0e-170 ->
  Binary64.mul
    (Binary64.mul (Binary64.rate_factor example_constants (Binary64.finite 260))
       (Binary64.finite s))
    (Binary64.finite s) = Binary64.finite 0.
Proof.
  intros Hs. destruct example_rate_factor_260 as (A & -> & HA).
  pose proof thresholds_ordered as (H0 & H1 & H2).
  cbn [Binary64.mul].
  assert (HAs : 0 <= A * s <= 1.0e-156) by nra.
  destruct (round_nonneg_cases (A * s)) as [[_ E] | [[_ E] | [B _]]];
    [lra | | |]; try rewrite E; cbn [Binary64.mul].
  - rewrite Rmult_0_l. apply round_zero.
  - apply round_small.
    assert (0 <= A * s * s <= 1.0e-325) by nra.
    rewrite Rabs_pos_eq by lra.
    unfold Binary64.underflow_threshold. lra.
  - exfalso. unfold Binary64.overflow_threshold in B. lra.
Qed.

Lemma viscosity_nonincreasing_witness :
  Binary64.le
    (Binary64.viscosity example_constants (Binary64.finite 260)
       (Binary64.finite 2))
    (Binary64.viscosity example_constants (Binary64.finite 260)
       (Binary64.finite 1)).
Proof.
  destruct example_constants_in_range as [Hy Hg].
  apply (viscosity_nonincreasing example_constants Hy Hg 260 1 2); lra.
Defined.

(** C6, where the claim fails: strictly decreasing is more than the code
    gives.  At 260 K the strain rates [1e200 < 2e200] have the same
    viscosity, 0, since [A s s] overflows; and [1e-170 < 2e-170] have the
    same viscosity, [+infinity], since it underflows.  In neither pair is
    the second value less than the first. *)
Lemma viscosity_not_strictly_decreasing :
  (Binary64.viscosity example_constants (Binary64.finite 260)
     (Binary64.finite 1.0e200) = Binary64.finite 0 /\
   Binary64.viscosity example_constants (Binary64.finite 260)
     (Binary64.finite 2.0e200) = Binary64.finite 0 /\
   Binary64.ltb
     (Binary64.viscosity example_constants (Binary64.finite 260)
        (Binary64.finite 2.0e200))
     (Binary64.viscosity example_constants (Binary64.finite 260)
        (Binary64.finite 1.0e200)) = false) /\
  (Binary64.viscosity example_constants (Binary64.finite 260)
     (Binary64.finite 1.0e-170) = Binary64.infinity false /\
   Binary64.viscosity example_constants (Binary64.finite 260)
     (Binary64.finite 2.0e-170) = Binary64.infinity false /\
   Binary64.ltb
     (Binary64.viscosity example_constants (Binary64.finite 260)
        (Binary64.finite 2.0e-170))
     (Binary64.viscosity example_constants (Binary64.finite 260)
        (Binary64.finite 1.0e-170)) = false).
Proof.
  destruct example_constants_in_range as [Hy Hg].
  assert (H1 : Binary64.viscosity example_constants (Binary64.finite 260)
                 (Binary64.finite 1.0e200) = Binary64.finite 0)
    by (apply viscosity_at_overflow, example_base_overflows; lra).
  assert (H2 : Binary64.viscosity example_constants (Binary64.finite 260)
                 (Binary64.finite 2.0e200) = Binary64.finite 0)
    by (apply viscosity_at_overflow, example_base_overflows; lra).
  assert (H3 : Binary64.viscosity example_constants (Binary64.finite 260)
                 (Binary64.finite 1.0e-170) = Binary64.infinity false)
    by (apply viscosity_at_pole, example_base_underflows; lra).
  assert (H4 : Binary64.viscosity example_constants (Binary64.finite 260)
                 (Binary64.finite 2.0e-170) = Binary64.infinity false)
    by (apply viscosity_at_pole, example_base_underflows; lra).
  rewrite H1, H2, H3, H4. repeat split.
  cbn. apply Rltb_false. lra.
Qed.

Lemma viscosity_is_unguarded_witness :
  (exists x,
     0 < x /\
     Binary64.viscosity example_constants (Binary64.finite 260)
       (Binary64.finite 1)
     = Binary64.finite (Rpower x (-1 / 3) / 2)) /\
  Binary64.viscosity example_constants (Binary64.finite 260)
    (Binary64.finite 0) = Binary64.infinity false /\
  Binary64.SSA.linearized example_constants (Binary64.finite 260)
    (Binary64.finite 1)
    (Binary64.mkT2 (Binary64.finite 0) (Binary64.finite 0) (Binary64.finite 0))
  = Binary64.nan_tensor.
Proof.
  destruct example_constants_in_range as [Hy Hg].
  assert (HT : 0 < 260) by lra.
  destruct (viscosity_is_unguarded example_constants Hy Hg 260 HT)
    as (Hfinite & _ & Hpole & _ & Hnan).
  split; [| split; [exact Hpole | apply Hnan]].
  destruct example_rate_factor_260 as (A & HA & HAr).
  exists (A * 1 * 1).
  assert (Hbase :
            Binary64.mul
              (Binary64.mul
                 (Binary64.rate_factor example_constants (Binary64.finite 260))
                 (Binary64.finite 1))
              (Binary64.finite 1) = Binary64.finite (A * 1 * 1)).
  { rewrite HA. cbn [Binary64.mul].
    rewrite round_in_range
      by (rewrite Rabs_pos_eq by lra;
          unfold Binary64.underflow_threshold, Binary64.overflow_threshold;
          lra).
    cbn [Binary64.mul]. apply round_in_range;
      rewrite Rabs_pos_eq by lra;
      unfold Binary64.underflow_threshold, Binary64.overflow_threshold; lra. }
  destruct (Hfinite 1 (A * 1 * 1)) as (Hx & Hv & _);
    [lra | exact Hbase | lra |].
  split; [exact Hx | exact Hv].
Defined.

(** C7, where the claim fails: [T > 0] and [s > 0] do not keep
    [viscosity] off the pole.  At 5 K the exponential underflows and the
    rate factor is 0, so that at the strain rate 1 the base is 0 and the
    viscosity [+infinity]; at 260 K the same happens at the strain rate
    [1e-170], where the product [A s s] underflows. *)
Lemma viscosity_pole_at_positive_arguments :
  Binary64.rate_factor example_constants (Binary64.finite 5)
  = Binary64.finite 0 /\
  Binary64.viscosity example_constants (Binary64.finite 5) (Binary64.finite 1)
  = Binary64.infinity false /\
  Binary64.mul
    (Binary64.mul
       (Binary64.rate_factor example_constants (Binary64.finite 260))
       (Binary64.finite 1.0e-170))
    (Binary64.finite 1.0e-170) = Binary64.finite 0 /\
  Binary64.viscosity example_constants (Binary64.finite 260)
    (Binary64.finite 1.0e-170) = Binary64.infinity false.
Proof.
  destruct example_constants_in_range as [Hy Hg].
  split; [apply example_rate_factor_5 |]. split.
  - apply viscosity_at_pole. rewrite example_rate_factor_5.
    cbn [Binary64.mul]. rewrite Rmult_0_l, round_zero. cbn [Binary64.mul].
    now rewrite Rmult_0_l, round_zero.
  - split; [apply example_base_underflows; lra |].
    apply viscosity_at_pole, example_base_underflows. lra.
Qed.

(** * Further properties *)

(** ** Rate factor and viscosity *)

Lemma round_opp (x : R) :
  Binary64.round (- x) = Binary64.opp (Binary64.round x).
Proof.
  unfold Binary64.round. rewrite Rabs_Ropp.
  pose proof thresholds_ordered as (H0 & H1 & H2).
  destruct (Rle_dec _ _) as [Hl |].
  - cbn. f_equal. unfold Rltb.
    assert (x <> 0) by (intros ->; rewrite Rabs_R0 in Hl; lra).
    destruct (Rlt_dec (- x) 0), (Rlt_dec x 0); try reflexivity; lra.
  - destruct (Rle_dec _ _); cbn; [now rewrite Ropp_0 | reflexivity].
Qed.

Lemma Rltb_opp (y : R) : y <> 0 -> Rltb (- y) 0 = negb (Rltb y 0).
Proof.
  intros Hy. unfold Rltb.
  destruct (Rlt_dec (- y) 0), (Rlt_dec y 0); try reflexivity; lra.
Qed.

Lemma mul_opp_r (a b : Binary64.double) :
  Binary64.mul a (Binary64.opp b) = Binary64.opp (Binary64.mul a b).
Proof.
  destruct a as [| n | x], b as [| m | y]; cbn; try reflexivity.
  - now destruct n, m.
  - destruct (Req_dec_T (- y) 0), (Req_dec_T y 0); try lra; try reflexivity.
    cbn. rewrite Rltb_opp by assumption. now destruct n, (Rltb y 0).
  - destruct (Req_dec_T x 0); [reflexivity |]. cbn.
    now destruct (Rltb x 0), m.
  - rewrite <- round_opp. f_equal. ring.
Qed.

Lemma mul_opp_l (a b : Binary64.double) :
  Binary64.mul (Binary64.opp a) b = Binary64.opp (Binary64.mul a b).
Proof.
  destruct a as [| n | x], b as [| m | y]; cbn; try reflexivity.
  - now destruct n, m.
  - destruct (Req_dec_T y 0); [reflexivity |]. cbn.
    now destruct n, (Rltb y 0).
  - destruct (Req_dec_T (- x) 0), (Req_dec_T x 0); try lra; try reflexivity.
    cbn. rewrite Rltb_opp by assumption. now destruct m, (Rltb x 0).
  - rewrite <- round_opp. f_equal. ring.
Qed.

Lemma opp_involutive (a : Binary64.double) :
  Binary64.opp (Binary64.opp a) = a.
Proof.
  destruct a as [| n | x]; cbn; [reflexivity | now destruct n |].
  now rewrite Ropp_involutive.
Qed.

(** X3.  The viscosity is an even function of the strain rate: the code
    asks for no sign, [viscosity(T, -s)] is [viscosity(T, s)] at every
    temperature and strain rate, as real numbers and as doubles, infinities
    and NaN included. *)
Theorem viscosity_even (k : PhysicalConstants) :
  (forall T s : R, viscosity k T (- s) = viscosity k T s) /\
  (forall T s : Binary64.double,
     Binary64.viscosity k T (Binary64.opp s) = Binary64.viscosity k T s).
Proof.
  split.
  - intros T s. unfold viscosity.
    destruct (rate_factor k T) as [A |]; [| reflexivity]. cbn [bind].
    replace (A * - s * - s) with (A * s * s) by ring. reflexivity.
  - intros T s. unfold Binary64.viscosity. cbv zeta.
    now rewrite !mul_opp_r, mul_opp_l, opp_involutive.
Qed.

(** ** The constitutive tensors as bilinear forms *)

Lemma contract_scale4 (s : R) (t : SymmetricTensor4) (e : SymmetricTensor2) :
  contract (scale4 s t) e = scale2 s (contract t e).
Proof.
  destruct t as [[? ? ?] [? ? ?] [? ? ?]], e as [a b c].
  cbv [scalar_product contract scale4 scale2 c00 c11 c01 row00 row11 row01].
  f_equal; ring.
Qed.

Lemma contract_sub4 (t u : SymmetricTensor4) (e : SymmetricTensor2) :
  contract (sub4 t u) e = sub2 (contract t e) (contract u e).
Proof.
  destruct t as [[? ? ?] [? ? ?] [? ? ?]], u as [[? ? ?] [? ? ?] [? ? ?]],
    e as [a b c].
  cbv [scalar_product contract sub4 sub2 c00 c11 c01 row00 row11 row01].
  f_equal; ring.
Qed.

Lemma contract_outer (g g' e : SymmetricTensor2) :
  contract (outer_product g g') e = scale2 (scalar_product g' e) g.
Proof.
  destruct g as [x y z], g' as [x' y' z'], e as [a b c].
  cbv [scalar_product contract outer_product scale2 c00 c11 c01 row00 row11 row01].
  f_equal; ring.
Qed.

Lemma scalar_product_comm (a b : SymmetricTensor2) :
  scalar_product a b = scalar_product b a.
Proof. destruct a, b. cbv [scalar_product c00 c11 c01]. ring. Qed.

Lemma scalar_product_sub2_l (a b e : SymmetricTensor2) :
  scalar_product (sub2 a b) e = scalar_product a e - scalar_product b e.
Proof. destruct a, b, e. cbv [scalar_product sub2 c00 c11 c01]. ring. Qed.

Lemma C_form_contract (a b : SymmetricTensor2) :
  scalar_product (contract SSA.C a) b = C_form a b.
Proof.
  rewrite C_contract. destruct a as [x y z], b as [x' y' z'].
  cbv [C_form scalar_product add2 scale2 first_invariant SSA.I
         unit_symmetric_tensor c00 c11 c01].
  ring.
Qed.

Lemma C_form_comm (a b : SymmetricTensor2) : C_form a b = C_form b a.
Proof. unfold C_form. rewrite scalar_product_comm. ring. Qed.

Lemma C_form_self (e : SymmetricTensor2) :
  C_form e e = 2 * (SSA.effective_strain_rate e * SSA.effective_strain_rate e).
Proof. rewrite effective_strain_rate_square. unfold C_form. lra. Qed.

Lemma C_form_nonneg (a : SymmetricTensor2) : 0 <= C_form a a.
Proof.
  rewrite C_form_self.
  apply Rmult_le_pos; [lra | apply Rle_0_sqr].
Qed.

(** Cauchy-Schwarz for the form of [C], by Lagrange's identity. *)
Lemma C_form_cauchy_schwarz (a b : SymmetricTensor2) :
  C_form a b * C_form a b <= C_form a a * C_form b b.
Proof.
  destruct a as [x y z], b as [x' y' z'].
  cbv [C_form scalar_product first_invariant c00 c11 c01].
  assert (E :
            (x * x + y * y + 2 * (z * z) + (x + y) * (x + y))
            * (x' * x' + y' * y' + 2 * (z' * z') + (x' + y') * (x' + y'))
            - (x * x' + y * y' + 2 * (z * z') + (x + y) * (x' + y'))
              * (x * x' + y * y' + 2 * (z * z') + (x + y) * (x' + y'))
            = 3 * Rsqr (x * y' - y * x')
              + 2 * Rsqr (x * z' - z * x') + 2 * Rsqr (y * z' - z * y')
              + 2 * Rsqr ((x * z' - z * x') + (y * z' - z * y')))
    by (unfold Rsqr; ring).
  pose proof (Rle_0_sqr (x * y' - y * x')).
  pose proof (Rle_0_sqr (x * z' - z * x')).
  pose proof (Rle_0_sqr (y * z' - z * y')).
  pose proof (Rle_0_sqr ((x * z' - z * x') + (y * z' - z * y'))).
  lra.
Qed.

Lemma effective_strain_rate_opposite (eps : SymmetricTensor2) :
  SSA.effective_strain_rate (opposite eps) = SSA.effective_strain_rate eps.
Proof.
  unfold SSA.effective_strain_rate. cbv zeta. f_equal.
  destruct eps as [a b c].
  cbv [opposite scalar_product first_invariant c00 c11 c01]. lra.
Qed.

(** The unit flow direction [gamma] has [gamma : eps = 2 eps_e]. *)
Lemma flow_direction_contract (eps : SymmetricTensor2) :
  SSA.effective_strain_rate eps <> 0 ->
  scalar_product
    (scale2 (/ SSA.effective_strain_rate eps)
       (add2 eps (scale2 (first_invariant eps) SSA.I))) eps
  = 2 * SSA.effective_strain_rate eps.
Proof.
  intros He. rewrite scalar_product_scale2_l, <- C_contract, C_form_contract,
    C_form_self.
  field. exact He.
Qed.

Section ConstitutiveMore.

Variable k : PhysicalConstants.
Hypothesis year_in_sec_positive : 0 < year_in_sec k.
Hypothesis ideal_gas_positive : 0 < ideal_gas k.

(** X5.  Both constitutive tensors are even in the strain rate: at [-eps] each
    function returns what it returns at [eps], a tensor or nothing. *)
Theorem constitutive_tensors_even (T h : R) (eps : SymmetricTensor2) :
  SSA.nonlinear k T h (opposite eps) = SSA.nonlinear k T h eps /\
  SSA.linearized k T h (opposite eps) = SSA.linearized k T h eps.
Proof.
  pose proof (effective_strain_rate_opposite eps) as He.
  unfold SSA.effective_strain_rate in He. cbv zeta in He.
  unfold SSA.nonlinear, SSA.linearized. cbv zeta. rewrite He.
  split; [reflexivity |].
  set (e := sqrt ((scalar_product eps eps
                   + first_invariant eps * first_invariant eps) / 2)).
  destruct (Req_dec_T e 0) as [E0 | N0].
  - rewrite E0, !div2_by_zero. reflexivity.
  - rewrite !div2_defined by exact N0. cbn [bind].
    destruct (viscosity k T e) as [v |]; [| reflexivity]. cbn [bind].
    rewrite !div4_defined by lra. cbn [bind].
    do 4 f_equal. destruct eps as [a b c].
    cbv [outer_product scale2 add2 opposite first_invariant SSA.I
           unit_symmetric_tensor c00 c11 c01].
    unfold Rdiv. f_equal; f_equal; ring.
Qed.

(** X6.  Contracted once with the strain rate it was built at, the tangent tensor
    is a third of the secant tensor, as rank-2 tensors:
    [linearized : eps = 1/3 (nonlinear : eps)]. *)
Theorem tangent_stress_is_a_third_of_secant_stress (T h : R)
  (eps : SymmetricTensor2) :
  0 < T -> 0 < SSA.effective_strain_rate eps ->
  exists n l,
    SSA.nonlinear k T h eps = Some n /\
    SSA.linearized k T h eps = Some l /\
    contract l eps = scale2 (1 / 3) (contract n eps).
Proof.
  intros HT He.
  destruct (viscosity_positive k year_in_sec_positive ideal_gas_positive T
              (SSA.effective_strain_rate eps) HT) as (v & Hv & _); [lra |].
  eexists. eexists.
  split; [apply nonlinear_value, Hv |].
  split; [apply linearized_value; [lra | exact Hv] |].
  cbv zeta.
  rewrite !contract_scale4, contract_sub4, contract_scale4, contract_outer.
  rewrite flow_direction_contract by lra.
  rewrite C_contract.
  set (e := SSA.effective_strain_rate eps) in *.
  set (X := add2 eps (scale2 (first_invariant eps) SSA.I)).
  destruct X as [x y z].
  cbv [scale2 sub2 c00 c11 c01].
  f_equal; field; lra.
Qed.

(** X7.  The secant tensor as a quadratic form: for every symmetric [s],
    [(nonlinear : s) : s = 2 nu (s : s + tr(s)^2)] with
    [nu = h viscosity(T, eps_e)]; it is not negative when [h >= 0], and at
    [s = eps] it is the dissipation [4 nu eps_e^2]. *)
Theorem nonlinear_quadratic_form (T h : R) (eps : SymmetricTensor2) :
  0 < T -> 0 < SSA.effective_strain_rate eps ->
  exists v n,
    viscosity k T (SSA.effective_strain_rate eps) = Some v /\
    0 < v /\
    SSA.nonlinear k T h eps = Some n /\
    (forall s,
       scalar_product (contract n s) s
       = 2 * (h * v)
         * (scalar_product s s + first_invariant s * first_invariant s)) /\
    (0 <= h -> forall s, 0 <= scalar_product (contract n s) s) /\
    scalar_product (contract n eps) eps
    = 4 * (h * v)
      * (SSA.effective_strain_rate eps * SSA.effective_strain_rate eps).
Proof.
  intros HT He.
  destruct (viscosity_positive k year_in_sec_positive ideal_gas_positive T
              (SSA.effective_strain_rate eps) HT) as (v & Hv & Hpos); [lra |].
  exists v, (scale4 (2 * (h * v)) SSA.C).
  split; [exact Hv |]. split; [exact Hpos |].
  split; [apply nonlinear_value, Hv |].
  assert (Hform : forall s,
            scalar_product (contract (scale4 (2 * (h * v)) SSA.C) s) s
            = 2 * (h * v) * C_form s s)
    by (intros s; rewrite quadratic_scale4, C_form_contract; reflexivity).
  split; [intros s; rewrite Hform; reflexivity |].
  split.
  - intros Hh s. rewrite Hform.
    apply Rmult_le_pos; [| apply C_form_nonneg].
    apply Rmult_le_pos; [lra |]. apply Rmult_le_pos; lra.
  - rewrite Hform, C_form_self. ring.
Qed.

(** X8.  The tangent tensor is positive: for [h >= 0] and every symmetric [s],
    [1/3 (nonlinear : s) : s <= (linearized : s) : s <= (nonlinear : s) : s].
    The Newton linearization loses at most two thirds of the stiffness of
    the secant tensor, in whatever direction. *)
Theorem linearized_between_third_and_secant (T h : R)
  (eps : SymmetricTensor2) :
  0 < T -> 0 < SSA.effective_strain_rate eps -> 0 <= h ->
  exists n l,
    SSA.nonlinear k T h eps = Some n /\
    SSA.linearized k T h eps = Some l /\
    forall s,
      1 / 3 * scalar_product (contract n s) s
      <= scalar_product (contract l s) s
      <= scalar_product (contract n s) s.
Proof.
  intros HT He Hh.
  destruct (viscosity_positive k year_in_sec_positive ideal_gas_positive T
              (SSA.effective_strain_rate eps) HT) as (v & Hv & Hpos); [lra |].
  eexists. eexists.
  split; [apply nonlinear_value, Hv |].
  split; [apply linearized_value; [lra | exact Hv] |].
  cbv zeta. intros s.
  rewrite !quadratic_scale4, quadratic_sub4, quadratic_scale4, quadratic_outer,
    C_form_contract.
  rewrite scalar_product_scale2_l, <- C_contract, C_form_contract.
  set (e := SSA.effective_strain_rate eps) in *.
  pose proof (C_form_cauchy_schwarz eps s) as HCS.
  pose proof (C_form_self eps) as Hself. fold e in Hself.
  pose proof (C_form_nonneg s) as Hs.
  set (P := C_form eps s) in *. set (S := C_form s s) in *.
  assert (Hinv : / e * e = 1) by (apply Rinv_l; lra).
  assert (Hsq : / e * P * (/ e * P) <= 2 * S).
  { replace (/ e * P * (/ e * P)) with ((/ e * / e) * (P * P)) by ring.
    apply Rle_trans with ((/ e * / e) * (C_form eps eps * S)).
    - apply Rmult_le_compat_l; [apply Rle_0_sqr | exact HCS].
    - rewrite Hself.
      replace (/ e * / e * (2 * (e * e) * S))
        with (2 * S * ((/ e * e) * (/ e * e))) by ring.
      rewrite Hinv. lra. }
  assert (Hsq0 : 0 <= / e * P * (/ e * P)) by apply Rle_0_sqr.
  assert (Hnu : 0 <= 2 * (h * v))
    by (apply Rmult_le_pos; [lra |]; apply Rmult_le_pos; lra).
  split.
  - replace (1 / 3 * (2 * (h * v) * S)) with (2 * (h * v) * (1 / 3 * S))
      by lra.
    apply Rmult_le_compat_l; [exact Hnu | lra].
  - apply Rmult_le_compat_l; [exact Hnu | lra].
Qed.

(** X9.  Both constitutive tensors are self-adjoint maps on symmetric tensors:
    [(t : a) : b = (t : b) : a]. *)
Theorem constitutive_tensors_self_adjoint (T h : R) (eps : SymmetricTensor2) :
  (forall n, SSA.nonlinear k T h eps = Some n ->
     forall a b,
       scalar_product (contract n a) b = scalar_product (contract n b) a) /\
  (forall l, SSA.linearized k T h eps = Some l ->
     forall a b,
       scalar_product (contract l a) b = scalar_product (contract l b) a).
Proof.
  assert (HC : forall s g a b,
            scalar_product
              (contract (scale4 s (sub4 SSA.C (scale4 (/ 3) (outer_product g g))))
                 a) b
            = scalar_product
                (contract
                   (scale4 s (sub4 SSA.C (scale4 (/ 3) (outer_product g g))))
                   b) a).
  { intros s g a b.
    rewrite !contract_scale4, !contract_sub4, !contract_scale4, !contract_outer,
      !scalar_product_scale2_l, !scalar_product_sub2_l,
      !scalar_product_scale2_l, !C_form_contract.
    rewrite (C_form_comm a b). ring. }
  split.
  - intros n Hn a b. unfold SSA.nonlinear in Hn. cbv zeta in Hn.
    destruct (viscosity k T _) as [v |]; [| discriminate].
    injection Hn as <-.
    rewrite !contract_scale4, !scalar_product_scale2_l, !C_form_contract.
    rewrite (C_form_comm a b). reflexivity.
  - intros l Hl a b. unfold SSA.linearized in Hl. cbv zeta in Hl.
    destruct (div2 _ _) as [g |]; [| discriminate]. cbn [bind] in Hl.
    destruct (viscosity k T _) as [v |]; [| discriminate]. cbn [bind] in Hl.
    rewrite div4_defined in Hl by lra. injection Hl as <-.
    apply HC.
Qed.

End ConstitutiveMore.

(** ** SquareGradient: value and derivative *)

Lemma dot_vscale_r (s : R) (a t : list R) :
  dot a (vscale s t) = s * dot a t.
Proof. rewrite dot_comm, dot_vscale_l, dot_comm. reflexivity. Qed.

Lemma vmult_vscale (A : SparseMatrix) (s : R) (x : Vector) :
  vmult A (vscale s x) = vscale s (vmult A x).
Proof.
  unfold vmult, vscale. rewrite map_map. apply map_ext.
  intros r. apply dot_vscale_r.
Qed.

(** X10.  [operator()] of [SquareGradient] is a quadratic form in the
    coefficients: it vanishes at the zero field, scales with the square of a
    factor, and is half the pairing of the field with [derivative]. *)
Theorem SquareGradient_value_quadratic (sg : SquareGradient)
  (dsc : Discretization) (u : FieldType primal) (c : R) :
  SquareGradient_value sg (new_field primal dsc) = 0 /\
  SquareGradient_value sg (scale_field c u) = c * c * SquareGradient_value sg u /\
  SquareGradient_value sg u
  = 0.5 * dot (get_coefficients u)
            (get_coefficients (SquareGradient_derivative sg u)).
Proof.
  unfold SquareGradient_value, matrix_norm_square. split; [| split].
  - cbn [new_field get_coefficients]. unfold zero_vector.
    rewrite dot_repeat_zero_l. lra.
  - cbn [scale_field get_coefficients].
    rewrite vmult_vscale, dot_vscale_l, dot_vscale_r. lra.
  - reflexivity.
Qed.

(** X11.  [derivative] of [SquareGradient] is linear in the coefficients and
    keeps the discretization of its argument. *)
Theorem SquareGradient_derivative_linear (sg : SquareGradient)
  (dsc : Discretization) (u v : Vector) (c : R) :
  SquareGradient_derivative sg (scale_field c (mkField dsc u))
  = scale_field c (SquareGradient_derivative sg (mkField dsc u)) /\
  (length u = length v ->
   SquareGradient_derivative sg (mkField dsc (vsub u v))
   = mkField dsc
       (vsub (get_coefficients (SquareGradient_derivative sg (mkField dsc u)))
             (get_coefficients (SquareGradient_derivative sg (mkField dsc v))))).
Proof.
  unfold SquareGradient_derivative, scale_field.
  cbn [get_coefficients get_discretization]. split.
  - rewrite vmult_vscale. reflexivity.
  - intros Hlen. rewrite vmult_vsub by exact Hlen. reflexivity.
Qed.

(** ** TotalVariation: value *)

Lemma nested_totals {X Y : Type} (xs : list X) (ys : list Y)
  (f : X -> Y -> R) (a : R) :
  fold_left
    (fun total x => fold_left (fun total' y => total' + f x y) ys total)
    xs a
  = a + sum_over xs (fun x => sum_over ys (f x)).
Proof.
  revert a. induction xs as [| x xs IH]; intros a.
  - rewrite sum_over_nil. cbn. lra.
  - cbn [fold_left]. rewrite IH, fold_left_total, sum_over_cons. lra.
Qed.

(** [operator()] of [TotalVariation] as a double sum over cells and
    quadrature points. *)
Lemma TotalVariation_value_sum (tv : TotalVariation) (u : FieldType primal) :
  TotalVariation_value tv u
  = sum_over (active_cell_iterators (get_discretization u))
      (fun cell =>
         sum_over (seq 0 (quad_size (get_discretization u)))
           (fun q =>
              (graph_area_element (alpha tv)
                 (get_function_gradients (get_discretization u) cell
                    (get_coefficients u) q) - 1)
              * JxW (get_discretization u) cell q)).
Proof.
  unfold TotalVariation_value. cbv zeta.
  rewrite (nested_totals _ _
             (fun cell q =>
                (graph_area_element (alpha tv)
                   (get_function_gradients (get_discretization u) cell
                      (get_coefficients u) q) - 1)
                * JxW (get_discretization u) cell q)).
  lra.
Qed.

Lemma dot_vscale_self (s : R) (g : list R) :
  dot (vscale s g) (vscale s g) = s * s * dot g g.
Proof. rewrite dot_vscale_l, dot_vscale_r. ring. Qed.

(** The pseudo-Huber bound [sqrt (x + 1) - 1 <= x / 2]. *)
Lemma graph_area_element_bound (a : R) (g : gradient_type) :
  graph_area_element a g - 1 <= 0.5 * (a * a) * dot g g.
Proof.
  unfold graph_area_element. cbv zeta. rewrite dot_vscale_self.
  pose proof (dot_self_nonneg g) as Hg.
  assert (HD : 0 <= a * a * dot g g)
    by (apply Rmult_le_pos; [apply Rle_0_sqr | exact Hg]).
  set (D := a * a * dot g g) in *.
  assert (Hs : sqrt (D + 1) <= 1 + D / 2).
  { rewrite <- (sqrt_square (1 + D / 2)) by lra.
    apply sqrt_le_1_alt.
    pose proof (Rle_0_sqr D) as HDD. unfold Rsqr in HDD. lra. }
  subst D. lra.
Qed.

(** X12.  On cells whose quadrature weights are not negative the total variation
    lies between 0 and the square-gradient penalty
    [alpha^2 / 2 * sum |grad u|^2 dx]. *)
Theorem TotalVariation_value_bounds (tv : TotalVariation)
  (u : FieldType primal) :
  (forall cell q,
     In cell (active_cell_iterators (get_discretization u)) ->
     (q < quad_size (get_discretization u))%nat ->
     0 <= JxW (get_discretization u) cell q) ->
  0 <= TotalVariation_value tv u
  <= 0.5 * (alpha tv * alpha tv)
     * sum_over (active_cell_iterators (get_discretization u))
         (fun cell =>
            sum_over (seq 0 (quad_size (get_discretization u)))
              (fun q =>
                 dot (get_function_gradients (get_discretization u) cell
                        (get_coefficients u) q)
                     (get_function_gradients (get_discretization u) cell
                        (get_coefficients u) q)
                 * JxW (get_discretization u) cell q)).
Proof.
  intros Hdx. rewrite TotalVariation_value_sum. split.
  - rewrite <- (sum_over_zero (active_cell_iterators (get_discretization u))).
    apply sum_over_le. intros cell Hcell.
    rewrite <- (sum_over_zero (seq 0 (quad_size (get_discretization u)))).
    apply sum_over_le. intros q Hq. apply in_seq in Hq.
    apply Rmult_le_pos; [| apply Hdx; [exact Hcell | lia]].
    pose proof (graph_area_element_ge_1 (alpha tv)
                  (get_function_gradients (get_discretization u) cell
                     (get_coefficients u) q)).
    lra.
  - rewrite <- sum_over_scale. apply sum_over_le. intros cell Hcell.
    rewrite <- sum_over_scale. apply sum_over_le. intros q Hq.
    apply in_seq in Hq. rewrite <- Rmult_assoc.
    apply Rmult_le_compat_r; [apply Hdx; [exact Hcell | lia] |].
    apply graph_area_element_bound.
Qed.

(** ** TotalVariation: the limits [alpha = 0] and flat reference field *)

Lemma graph_area_element_zero_alpha (g : gradient_type) :
  graph_area_element 0 g = 1.
Proof.
  unfold graph_area_element. cbv zeta. rewrite dot_vscale_self.
  replace (0 * 0 * dot g g + 1) with 1 by ring. apply sqrt_1.
Qed.

Lemma sum_over_all_zero {X : Type} (xs : list X) (f : X -> R) :
  (forall x, In x xs -> f x = 0) -> sum_over xs f = 0.
Proof.
  intros H. rewrite (sum_over_ext xs f (fun _ => 0) H). apply sum_over_zero.
Qed.

Lemma table_ext (n : nat) (f g : nat -> nat -> R) :
  (forall i j, (i < n)%nat -> (j < n)%nat -> f i j = g i j) ->
  table n f = table n g.
Proof.
  intros H. unfold table. apply tabulate_ext. intros i Hi.
  apply tabulate_ext. intros j Hj. apply H; assumption.
Qed.

(** X13.  With [alpha = 0] nothing is penalized: the total variation is 0, every
    cell vector of [derivative] is zero, and every cell matrix of [filter]
    is the mass part alone. *)
Theorem TotalVariation_zero_alpha (u : FieldType primal)
  (cell : cell_iterator) :
  TotalVariation_value (mkTotalVariation 0) u = 0 /\
  derivative_cell (mkTotalVariation 0) u cell
  = Some (zero_vector (dofs_per_cell (get_discretization u))) /\
  filter_cell (mkTotalVariation 0) u cell = Some (mass_cell_matrix u cell).
Proof.
  split; [| split].
  - rewrite TotalVariation_value_sum. cbn [alpha].
    apply sum_over_all_zero. intros c _.
    apply sum_over_all_zero. intros q _.
    rewrite graph_area_element_zero_alpha. ring.
  - rewrite derivative_cell_closed_form. cbn [alpha]. f_equal.
    unfold derivative_cell_vector, zero_vector. cbv zeta.
    rewrite <- tabulate_const. apply tabulate_ext. intros i _.
    apply sum_over_all_zero. intros q _.
    unfold derivative_integrand. cbv zeta.
    rewrite dot_vscale_l. unfold Rdiv. ring.
  - rewrite filter_cell_closed_form. cbn [alpha]. f_equal.
    unfold filter_cell_matrix, mass_cell_matrix. cbv zeta.
    apply table_ext. intros i j _ _.
    apply sum_over_ext. intros q _.
    unfold filter_integrand. cbv zeta. unfold Rdiv. ring.
Qed.

(** A vector of norm 0 is orthogonal to everything. *)
Lemma dot_null (a b : list R) : dot a a = 0 -> dot a b = 0.
Proof.
  intros H. pose proof (dot_cauchy_schwarz a b) as HCS. rewrite H in HCS.
  pose proof (Rle_0_sqr (dot a b)) as Hsq. unfold Rsqr in Hsq.
  apply Rsqr_0_uniq. unfold Rsqr. lra.
Qed.

(** Where the reference field is flat the integrand of [filter] is that of
    the mass matrix plus [alpha^2] times that of the Laplace matrix. *)
Lemma filter_integrand_flat (a : R) (g : gradient_type) (phi_i phi_j : R)
  (d_phi_i d_phi_j : gradient_type) (dx : R) :
  dot g g = 0 ->
  filter_integrand a g phi_i phi_j d_phi_i d_phi_j dx
  = (phi_i * phi_j + a * a * dot d_phi_i d_phi_j) * dx.
Proof.
  intros Hg.
  assert (Hdu : dot (vscale a g) (vscale a g) = 0)
    by (rewrite dot_vscale_self, Hg; ring).
  assert (HdA : graph_area_element a g = 1).
  { unfold graph_area_element. cbv zeta. rewrite Hdu.
    replace (0 + 1) with 1 by ring. apply sqrt_1. }
  assert (Htau : dot (graph_normal a g) (graph_normal a g) = 0).
  { unfold graph_normal. cbv zeta.
    rewrite dot_map_div by (rewrite HdA; lra). rewrite Hdu. unfold Rdiv. ring. }
  unfold filter_integrand. cbv zeta.
  rewrite (dot_null _ d_phi_j Htau), HdA. unfold Rdiv. rewrite Rinv_1. ring.
Qed.

(** X14.  Linearized around a field that is flat at every quadrature point of a
    cell, [filter] builds the cell matrix of the square-gradient filter:
    mass plus [alpha^2] times Laplace. *)
Theorem TotalVariation_filter_flat_reference (tv : TotalVariation)
  (u : FieldType primal) (cell : cell_iterator) :
  (forall q, (q < quad_size (get_discretization u))%nat ->
     dot (get_function_gradients (get_discretization u) cell
            (get_coefficients u) q)
         (get_function_gradients (get_discretization u) cell
            (get_coefficients u) q) = 0) ->
  filter_cell tv u cell
  = Some (table (dofs_per_cell (get_discretization u))
            (fun i j =>
               sum_over (seq 0 (quad_size (get_discretization u)))
                 (fun q =>
                    (shape_value (get_discretization u) cell i q
                     * shape_value (get_discretization u) cell j q
                     + alpha tv * alpha tv
                       * dot (shape_gradient (get_discretization u) cell i q)
                             (shape_gradient (get_discretization u) cell j q))
                    * JxW (get_discretization u) cell q))).
Proof.
  intros Hflat. rewrite filter_cell_closed_form. f_equal.
  unfold filter_cell_matrix. cbv zeta.
  apply table_ext. intros i j _ _.
  apply sum_over_ext. intros q Hq. apply in_seq in Hq.
  apply filter_integrand_flat. apply Hflat. lia.
Qed.

(** ** TotalVariation: symmetry of the operator of [filter] *)

Lemma filter_integrand_symmetric (a : R) (g : gradient_type)
  (phi_i phi_j : R) (d_phi_i d_phi_j : gradient_type) (dx : R) :
  filter_integrand a g phi_i phi_j d_phi_i d_phi_j dx
  = filter_integrand a g phi_j phi_i d_phi_j d_phi_i dx.
Proof.
  unfold filter_integrand. cbv zeta.
  rewrite (dot_comm d_phi_i d_phi_j),
    (dot_comm d_phi_i (graph_normal a g)),
    (dot_comm (graph_normal a g) d_phi_j).
  unfold Rdiv. ring.
Qed.

Lemma table_symmetric (n : nat) (f : nat -> nat -> R) :
  (forall i j, f i j = f j i) ->
  forall i j,
    nth j (nth i (table n f) []) 0 = nth i (nth j (table n f) []) 0.
Proof.
  intros Hf.
  assert (Hout : forall i j, (n <= i)%nat \/ (n <= j)%nat ->
                   nth j (nth i (table n f) []) 0 = 0).
  { intros i j [Hi | Hj].
    - rewrite (nth_overflow (table n f)) by (unfold table; rewrite tabulate_length; lia).
      destruct j; reflexivity.
    - destruct (Nat.lt_ge_cases i n) as [Hi | Hi].
      + unfold table. rewrite nth_tabulate by exact Hi.
        apply nth_overflow. rewrite tabulate_length. exact Hj.
      + rewrite (nth_overflow (table n f))
          by (unfold table; rewrite tabulate_length; lia).
        destruct j; reflexivity. }
  intros i j.
  destruct (Nat.lt_ge_cases i n) as [Hi | Hi];
    destruct (Nat.lt_ge_cases j n) as [Hj | Hj].
  - rewrite !table_entry by assumption. apply Hf.
  - rewrite !Hout by (right; exact Hj) || (left; exact Hj). reflexivity.
  - rewrite !Hout by (left; exact Hi) || (right; exact Hi). reflexivity.
  - rewrite !Hout by (left; assumption). reflexivity.
Qed.

(** X15.  The cell matrix the loops of [filter] leave is symmetric, whatever the
    field, the cell and [alpha]. *)
Theorem TotalVariation_filter_cell_symmetric (tv : TotalVariation)
  (u : FieldType primal) (cell : cell_iterator) :
  exists m,
    filter_cell tv u cell = Some m /\
    forall i j, nth j (nth i m []) 0 = nth i (nth j m []) 0.
Proof.
  eexists. split; [apply filter_cell_closed_form |].
  unfold filter_cell_matrix. cbv zeta.
  apply table_symmetric. intros i j.
  apply sum_over_ext. intros q _. apply filter_integrand_symmetric.
Qed.

(** ** TotalVariation: derivative *)

(** X16.  [derivative(u)] always returns, on the discretization of [u]: on every
    cell the loops leave the cell vector whose entry [i] is the sum over the
    quadrature points of [alpha (du . dphi_i) / dA dx] with
    [du = alpha grad u] and [dA = sqrt (du . du + 1)], and the cell vectors
    are distributed into the zero vector. *)
Theorem TotalVariation_derivative_assembles (tv : TotalVariation)
  (u : FieldType primal) :
  (forall cell,
     exists v,
       derivative_cell tv u cell = Some v /\
       length v = dofs_per_cell (get_discretization u) /\
       forall i, (i < dofs_per_cell (get_discretization u))%nat ->
         nth i v 0
         = sum_over (seq 0 (quad_size (get_discretization u)))
             (fun q =>
                let dsc := get_discretization u in
                let dx := JxW dsc cell q in
                let du :=
                  vscale (alpha tv)
                    (get_function_gradients dsc cell (get_coefficients u) q) in
                let dA := sqrt (dot du du + 1) in
                let dphi := shape_gradient dsc cell i q in
                dot (vscale (alpha tv) du) dphi / dA * dx)) /\
  TotalVariation_derivative tv u
  = Some (mkField (get_discretization u)
            (fold_left
               (fun g cell =>
                  distribute_local_to_global_vector
                    (get_constraints (get_discretization u))
                    (derivative_cell_vector (alpha tv) u cell)
                    (get_dof_indices (get_discretization u) cell) g)
               (active_cell_iterators (get_discretization u))
               (zero_vector (n_dofs (get_discretization u))))).
Proof.
  split.
  - intros cell. exists (derivative_cell_vector (alpha tv) u cell).
    split; [apply derivative_cell_closed_form |].
    unfold derivative_cell_vector. cbv zeta.
    split; [apply tabulate_length |].
    intros i Hi. rewrite nth_tabulate by exact Hi. reflexivity.
  - unfold TotalVariation_derivative. cbv zeta.
    rewrite (for_each_total _ _
               (fun cell g =>
                  distribute_local_to_global_vector
                    (get_constraints (get_discretization u))
                    (derivative_cell_vector (alpha tv) u cell)
                    (get_dof_indices (get_discretization u) cell) g)).
    + reflexivity.
    + intros cell g _. rewrite derivative_cell_closed_form. reflexivity.
Qed.

Lemma Rabs_sum_over {X : Type} (xs : list X) (f : X -> R) :
  Rabs (sum_over xs f) <= sum_over xs (fun x => Rabs (f x)).
Proof.
  induction xs as [| x xs IH].
  - rewrite !sum_over_nil, Rabs_R0. lra.
  - rewrite !sum_over_cons.
    eapply Rle_trans; [apply Rabs_triang |]. lra.
Qed.

Lemma sum_over_nonneg {X : Type} (xs : list X) (f : X -> R) :
  (forall x, In x xs -> 0 <= f x) -> 0 <= sum_over xs f.
Proof.
  intros H. rewrite <- (sum_over_zero xs). apply sum_over_le. exact H.
Qed.

(** Cauchy-Schwarz with norms. *)
Lemma dot_abs_le (a b : list R) : Rabs (dot a b) <= l2_norm a * l2_norm b.
Proof.
  unfold l2_norm.
  rewrite <- sqrt_mult by apply dot_self_nonneg.
  rewrite <- sqrt_Rsqr_abs. apply sqrt_le_1_alt.
  unfold Rsqr. apply dot_cauchy_schwarz.
Qed.

(** The integrand of [derivative] is bounded by [|alpha| |dphi| |dx|],
    however steep the field. *)
Lemma derivative_integrand_bounded (a : R) (g d_phi : gradient_type) (dx : R) :
  Rabs (derivative_integrand a g d_phi dx)
  <= Rabs a * (l2_norm d_phi * Rabs dx).
Proof.
  unfold derivative_integrand. cbv zeta.
  pose proof (graph_area_element_ge_1 a g) as HdA.
  set (dA := graph_area_element a g) in *.
  set (du := vscale a g).
  rewrite dot_vscale_l.
  unfold Rdiv. rewrite !Rabs_mult, Rabs_inv, (Rabs_right dA) by lra.
  assert (Hnorm : l2_norm du <= dA).
  { subst dA du. unfold graph_area_element, l2_norm. cbv zeta.
    apply sqrt_le_1_alt. lra. }
  pose proof (dot_abs_le du d_phi) as HCS.
  assert (Hphi : 0 <= l2_norm d_phi) by apply sqrt_pos.
  assert (Hdu : 0 <= l2_norm du) by apply sqrt_pos.
  assert (Hq : Rabs (dot du d_phi) * / dA <= l2_norm d_phi).
  { apply (Rmult_le_reg_r dA); [lra |].
    rewrite Rmult_assoc, Rinv_l, Rmult_1_r by lra.
    eapply Rle_trans; [exact HCS |].
    rewrite (Rmult_comm (l2_norm d_phi)).
    apply Rmult_le_compat_r; assumption. }
  rewrite (Rmult_assoc (Rabs a)), (Rmult_assoc (Rabs a)).
  apply Rmult_le_compat_l; [apply Rabs_pos |].
  apply Rmult_le_compat_r; [apply Rabs_pos | exact Hq].
Qed.

(** X17.  Every entry of the cell vector of [derivative] is bounded by
    [|alpha| sum_q |dphi_i| |dx|]: a bound that does not depend on the
    field. *)
Theorem TotalVariation_derivative_bounded (tv : TotalVariation)
  (u : FieldType primal) (cell : cell_iterator) :
  exists v,
    derivative_cell tv u cell = Some v /\
    forall i,
      Rabs (nth i v 0)
      <= Rabs (alpha tv)
         * sum_over (seq 0 (quad_size (get_discretization u)))
             (fun q =>
                l2_norm (shape_gradient (get_discretization u) cell i q)
                * Rabs (JxW (get_discretization u) cell q)).
Proof.
  exists (derivative_cell_vector (alpha tv) u cell).
  split; [apply derivative_cell_closed_form |].
  intros i. unfold derivative_cell_vector. cbv zeta.
  destruct (Nat.lt_ge_cases i (dofs_per_cell (get_discretization u)))
    as [Hi | Hi].
  - rewrite nth_tabulate by exact Hi.
    eapply Rle_trans; [apply Rabs_sum_over |].
    rewrite <- sum_over_scale. apply sum_over_le. intros q _.
    apply derivative_integrand_bounded.
  - rewrite nth_overflow by (rewrite tabulate_length; exact Hi).
    rewrite Rabs_R0. apply Rmult_le_pos; [apply Rabs_pos |].
    apply sum_over_nonneg. intros q _.
    apply Rmult_le_pos; [apply sqrt_pos | apply Rabs_pos].
Qed.

(** X18.  A larger [|alpha|] penalizes more: on cells whose quadrature weights
    are not negative the total variation of a field grows with [|alpha|]. *)
Theorem TotalVariation_value_monotone_in_alpha (a1 a2 : R)
  (u : FieldType primal) :
  Rabs a1 <= Rabs a2 ->
  (forall cell q,
     In cell (active_cell_iterators (get_discretization u)) ->
     (q < quad_size (get_discretization u))%nat ->
     0 <= JxW (get_discretization u) cell q) ->
  TotalVariation_value (mkTotalVariation a1) u
  <= TotalVariation_value (mkTotalVariation a2) u.
Proof.
  intros Ha Hdx. rewrite !TotalVariation_value_sum. cbn [alpha].
  apply sum_over_le. intros cell Hcell.
  apply sum_over_le. intros q Hq. apply in_seq in Hq.
  apply Rmult_le_compat_r; [apply Hdx; [exact Hcell | lia] |].
  apply Rplus_le_compat_r.
  unfold graph_area_element. cbv zeta. apply sqrt_le_1_alt.
  rewrite !dot_vscale_self.
  apply Rplus_le_compat_r, Rmult_le_compat_r; [apply dot_self_nonneg |].
  apply Rsqr_le_abs_1 in Ha. exact Ha.
Qed.

(** *** The further properties at sample inputs *)

Lemma tangent_stress_is_a_third_of_secant_stress_witness :
  exists n l,
    SSA.nonlinear example_constants 260 1 example_shear = Some n /\
    SSA.linearized example_constants 260 1 example_shear = Some l /\
    contract l example_shear = scale2 (1 / 3) (contract n example_shear).
Proof.
  destruct example_constants_positive as [Hy Hg].
  apply (tangent_stress_is_a_third_of_secant_stress example_constants Hy Hg
           260 1 example_shear).
  - lra.
  - unfold SSA.effective_strain_rate. cbv zeta.
    apply sqrt_lt_R0. cbv [example_shear scalar_product first_invariant c00 c11 c01].
    lra.
Defined.

Lemma example_shear_effective : 0 < SSA.effective_strain_rate example_shear.
Proof.
  unfold SSA.effective_strain_rate. cbv zeta.
  apply sqrt_lt_R0. cbv [example_shear scalar_product first_invariant c00 c11 c01].
  lra.
Qed.

Lemma nonlinear_quadratic_form_witness :
  exists v n,
    viscosity example_constants 260
      (SSA.effective_strain_rate example_shear) = Some v /\
    SSA.nonlinear example_constants 260 1 example_shear = Some n /\
    scalar_product (contract n example_strain_rate) example_strain_rate
    = 2 * (1 * v) * 2.
Proof.
  destruct example_constants_positive as [Hy Hg].
  destruct (nonlinear_quadratic_form example_constants Hy Hg 260 1
              example_shear) as (v & n & Hv & _ & Hn & Hform & _).
  - lra.
  - apply example_shear_effective.
  - exists v, n. split; [exact Hv |]. split; [exact Hn |].
    rewrite Hform.
    cbv [example_strain_rate scalar_product first_invariant c00 c11 c01].
    lra.
Defined.

Lemma linearized_between_third_and_secant_witness :
  exists n l,
    SSA.nonlinear example_constants 260 1 example_shear = Some n /\
    SSA.linearized example_constants 260 1 example_shear = Some l /\
    1 / 3 * scalar_product (contract n example_strain_rate) example_strain_rate
    <= scalar_product (contract l example_strain_rate) example_strain_rate
    <= scalar_product (contract n example_strain_rate) example_strain_rate.
Proof.
  destruct example_constants_positive as [Hy Hg].
  destruct (linearized_between_third_and_secant example_constants Hy Hg 260 1
              example_shear) as (n & l & Hn & Hl & Hbounds).
  - lra.
  - apply example_shear_effective.
  - lra.
  - exists n, l. split; [exact Hn |]. split; [exact Hl |]. apply Hbounds.
Defined.

Lemma example_weights_nonneg (x : R) :
  forall cell q,
    In cell (active_cell_iterators (get_discretization (example_field primal x))) ->
    (q < quad_size (get_discretization (example_field primal x)))%nat ->
    0 <= JxW (get_discretization (example_field primal x)) cell q.
Proof. intros cell q _ _. cbn. lra. Qed.

Lemma TotalVariation_value_bounds_witness :
  0 <= TotalVariation_value (mkTotalVariation 2) (example_field primal 3)
  <= 0.5 * (2 * 2) * (0 + (0 + (0 * 0 + 0) * 1)).
Proof.
  pose proof (TotalVariation_value_bounds (mkTotalVariation 2)
                (example_field primal 3) (example_weights_nonneg 3)) as H.
  exact H.
Defined.

Lemma TotalVariation_value_monotone_in_alpha_witness :
  TotalVariation_value (mkTotalVariation 1) (example_field primal 3)
  <= TotalVariation_value (mkTotalVariation (- 2)) (example_field primal 3).
Proof.
  apply (TotalVariation_value_monotone_in_alpha 1 (- 2)
           (example_field primal 3)).
  - unfold Rabs. destruct (Rcase_abs 1), (Rcase_abs (- 2)); lra.
  - apply example_weights_nonneg.
Defined.

Lemma TotalVariation_filter_flat_reference_witness :
  filter_cell (mkTotalVariation 2) (example_field primal 3) 0%nat
  = Some [[0 + (1 * 1 + 2 * 2 * (0 * 0 + 0)) * 1]].
Proof.
  apply (TotalVariation_filter_flat_reference (mkTotalVariation 2)
           (example_field primal 3) 0%nat).
  intros q _. cbn. ring.
Defined.
